(** * Module instance addresses and module graph flattening

    A shallow embedding of [internal/addrs/module_instance.go] (package
    [addrs]) and [terraform/graph_config_node_module.go] (package
    [terraform]), with the properties their specification states.

    Conventions of the embedding:
    - a Go slice is a [list]; the nil slice and the empty slice are both [[]];
    - a Go [string] is a [string] (a sequence of bytes);
    - a Go [int] is a [Z];
    - a run-time panic is an explicit result ([None], or [Panic msg]);
    - source ranges of tokens and of diagnostics are not modelled. *)

From Stdlib Require Import ZArith QArith String Ascii List Bool Lia.
From Stdlib Require Import Qreduction DecimalString DecimalPos.
From stdpp Require Import base decidable option list strings gmap sets fin_sets.

(* [simpl] computes the concatenation of strings. *)
#[local] Arguments String.append : simpl nomatch.

Local Open Scope Z_scope.
Local Open Scope nat_scope.
Local Open Scope string_scope.
Local Open Scope list_scope.

(** ** Packages [hcl] and [cty], as far as this file reads them *)

Module hcl.

(** A known, non-null [cty.Value]: a string, a number (an arbitrary-precision
    number, here a rational), or a value of another type. *)
Inductive ctyValue : Type :=
| ctyString (s : string)
| ctyNumber (q : Q)
| ctyOther.

(** One step of an [hcl.Traversal], by its dynamic type. *)
Inductive Traverser : Type :=
| TraverseRoot (name : string)
| TraverseAttr (name : string)
| TraverseIndex (key : ctyValue)
| TraverseSplat.

Definition Traversal : Type := list Traverser.

Inductive DiagnosticSeverity : Type := DiagError | DiagWarning.

Record Diagnostic : Type := mkDiagnostic {
  Severity : DiagnosticSeverity;
  Summary : string;
  Detail : string
}.

Definition Diagnostics : Type := list Diagnostic.

(** [diags.HasErrors()] *)
Definition HasErrors (diags : Diagnostics) : bool :=
  existsb (fun d => match Severity d with DiagError => true | DiagWarning => false end)
          diags.

End hcl.

(** ** Package [addrs] *)

Module addrs.
Import hcl.

(** The instance key of a module call: [NoKey], [intKey] or [stringKey]. *)
Inductive instanceKey : Type :=
| NoKey
| intKey (n : Z)
| stringKey (s : string).

#[global] Instance instanceKey_eq_dec : EqDecision instanceKey.
Proof. solve_decision. Defined.

(** [type ModuleInstanceStep struct { Name string; InstanceKey instanceKey }] *)
Record ModuleInstanceStep : Type := mkStep {
  Name : string;
  InstanceKey : instanceKey
}.

#[global] Instance ModuleInstanceStep_eq_dec : EqDecision ModuleInstanceStep.
Proof. solve_decision. Defined.

(** [type ModuleInstance []ModuleInstanceStep] *)
Definition ModuleInstance : Type := list ModuleInstanceStep.

(** [type Module []string], the static path of call names. *)
Definition Module_ : Type := list string.

(** [var RootModuleInstance ModuleInstance] (the zero value). *)
Definition RootModuleInstance : ModuleInstance := [].

(** [func (m Module) UnkeyedInstanceShim() ModuleInstance] *)
Definition UnkeyedInstanceShim (m : Module_) : ModuleInstance :=
  map (fun name => mkStep name NoKey) m.

(** [func (m ModuleInstance) Child(name string, key instanceKey) ModuleInstance] *)
Definition Child (m : ModuleInstance) (name : string) (key : instanceKey)
  : ModuleInstance :=
  m ++ [mkStep name key].

(** *** Targeting *)

Section Targeting.

(** The payloads of the resource addresses and the other implementations of
    the [Targetable] interface are declared outside this file: they are
    parameters here. *)
Context {resource resourceInstance otherTargetable : Type}.

Record absResource : Type := mkAbsResource {
  absResource_Module : ModuleInstance;
  absResource_Resource : resource
}.

Record absResourceInstance : Type := mkAbsResourceInstance {
  absResourceInstance_Module : ModuleInstance;
  absResourceInstance_Resource : resourceInstance
}.

(** A value of interface type [Targetable], by its dynamic type. *)
Inductive Targetable : Type :=
| TModuleInstance (to : ModuleInstance)
| TAbsResource (to : absResource)
| TAbsResourceInstance (to : absResourceInstance)
| TOther (to : otherTargetable).

(** The loop [for i, ourStep := range m { otherStep := to[i]; ... }].
    [i] is the index of the head of [rest] in [m]; [None] is the panic of an
    index out of range. *)
Fixpoint containsLoop (i : nat) (rest to : ModuleInstance) : option bool :=
  match rest with
  | [] => Some true
  | ourStep :: rest' =>
      match to !! i with
      | None => None
      | Some otherStep =>
          if decide (ourStep <> otherStep) then Some false
          else containsLoop (S i) rest' to
      end
  end.

(** The [case ModuleInstance:] branch of [TargetContains]; the calls of
    [TargetContains] on the [Module] field of a resource address arrive
    here. *)
Definition containsModuleInstance (m to : ModuleInstance) : option bool :=
  if (length to <? length m)%nat then Some false
  else containsLoop 0 m to.

(** [func (m ModuleInstance) TargetContains(other Targetable) bool] *)
Definition TargetContains (m : ModuleInstance) (other : Targetable)
  : option bool :=
  match other with
  | TModuleInstance to => containsModuleInstance m to
  | TAbsResource to => containsModuleInstance m (absResource_Module to)
  | TAbsResourceInstance to =>
      containsModuleInstance m (absResourceInstance_Module to)
  | TOther _ => Some false
  end.

End Targeting.

Arguments absResource : clear implicits.
Arguments absResourceInstance : clear implicits.
Arguments Targetable : clear implicits.

(** *** Diagnostics of the address parser *)

(** The double quote character, as a string. *)
Definition dq : string := String "034"%char EmptyString.

(** The diagnostics of this file, in the order they appear in it. *)
Definition diagMustBegin : Diagnostic :=
  mkDiagnostic DiagError "Invalid module instance address"
    ("A module instance address must begin with " +:+ dq +:+ "module." +:+ dq +:+ ".").

Definition diagAdditionalContent : Diagnostic :=
  mkDiagnostic DiagError "Invalid module instance address"
    "The module instance address is followed by additional invalid content.".

Definition diagNeedsName : Diagnostic :=
  mkDiagnostic DiagError "Invalid address operator"
    "Module address prefix must be followed by dot and then a name.".

Definition diagNeedsModuleName : Diagnostic :=
  mkDiagnostic DiagError "Invalid address operator"
    ("Prefix " +:+ dq +:+ "module." +:+ dq +:+ " must be followed by a module name.").

Definition diagInvalidIndex (err : string) : Diagnostic :=
  mkDiagnostic DiagError "Invalid address operator"
    ("Invalid module index: " +:+ err +:+ ".").

Definition diagInvalidKey : Diagnostic :=
  mkDiagnostic DiagError "Invalid address operator"
    "Invalid module key: must be either a string or an integer.".

(** A diagnostic with the detail [detail] is among [diags]. *)
Definition hasDetail (detail : string) (diags : Diagnostics) : Prop :=
  exists d, In d diags /\ Detail d = detail.

(** A diagnostic of the prefix parser is none of the two diagnostics that
    [parseModuleInstance] adds. *)
Definition prefixDiag (d : Diagnostic) : Prop :=
  Detail d <> Detail diagMustBegin /\ Detail d <> Detail diagAdditionalContent.

(** The loop of the prefix parser has ended at [remain]: nothing is left, or
    what is left does not start with the keyword [module]. *)
Definition loopEnded (remain : Traversal) : Prop :=
  match remain with
  | TraverseRoot name :: _ => name <> "module"
  | TraverseAttr name :: _ => name <> "module"
  | _ => True
  end.

(** [kw] is the keyword [module], as a root or as an attribute. *)
Definition isModuleKeyword (kw : Traverser) : Prop :=
  kw = TraverseRoot "module" \/ kw = TraverseAttr "module".

(** *** The address parser *)

Section Parser.

(** [gocty.FromCtyValue(idx.Key, &idxInt)] on a number: the integer, or the
    text of the error. The function belongs to a library outside this file and
    is a parameter. *)
Variable FromCtyValue : Q -> Z + string.

(** The loop of [parseModuleInstancePrefix], with its three variables
    [remain], [mi] and [diags]. A [break] inside a [switch] leaves the switch
    only, so after the [default:] cases the statements below the switch run. *)
Fixpoint parsePrefixLoop (remain : Traversal) (mi : ModuleInstance)
    (diags : Diagnostics) {struct remain}
  : ModuleInstance * Traversal * Diagnostics :=
  match remain with
  | [] => (mi, remain, diags)
  | tok :: remain1 =>
      let '(next, diags) :=
        match tok with
        | TraverseRoot name => (name, diags)
        | TraverseAttr name => (name, diags)
        | _ => (EmptyString, diags ++ [diagNeedsName])
        end in
      if negb (String.eqb next "module") then (mi, remain, diags)
      else
        match remain1 with
        | [] => (mi, remain1, diags ++ [diagNeedsModuleName])
        | tok2 :: remain2 =>
            let '(moduleName, diags) :=
              match tok2 with
              | TraverseAttr name => (name, diags)
              | _ => (EmptyString, diags ++ [diagNeedsModuleName])
              end in
            let step := mkStep moduleName NoKey in
            match remain2 with
            | TraverseIndex key :: remain3 =>
                match key with
                | ctyString s =>
                    parsePrefixLoop remain3
                      (mi ++ [mkStep moduleName (stringKey s)]) diags
                | ctyNumber q =>
                    match FromCtyValue q with
                    | inl idxInt =>
                        parsePrefixLoop remain3
                          (mi ++ [mkStep moduleName (intKey idxInt)]) diags
                    | inr err =>
                        parsePrefixLoop remain3 (mi ++ [step])
                          (diags ++ [diagInvalidIndex err])
                    end
                | ctyOther =>
                    parsePrefixLoop remain3 (mi ++ [step])
                      (diags ++ [diagInvalidKey])
                end
            | _ => parsePrefixLoop remain2 (mi ++ [step]) diags
            end
        end
  end.

(** The normalisation of the returned remainder: a leading [TraverseAttr]
    becomes a [TraverseRoot] of the same name. *)
Definition normalizeRemain (remain : Traversal) : Traversal :=
  match remain with
  | TraverseAttr name :: rest => TraverseRoot name :: rest
  | _ => remain
  end.

(** [func parseModuleInstancePrefix(traversal hcl.Traversal)
       (ModuleInstance, hcl.Traversal, tfdiags.Diagnostics)] *)
Definition parseModuleInstancePrefix (traversal : Traversal)
  : ModuleInstance * Traversal * Diagnostics :=
  let '(mi, remain, diags) := parsePrefixLoop traversal [] [] in
  (mi, normalizeRemain remain, diags).

(** [func parseModuleInstance(traversal hcl.Traversal)
       (ModuleInstance, tfdiags.Diagnostics)] *)
Definition parseModuleInstance (traversal : Traversal)
  : ModuleInstance * Diagnostics :=
  let '(mi, remain, diags) := parseModuleInstancePrefix traversal in
  if negb (length remain =? 0)%nat then
    if (length remain =? length traversal)%nat
    then (mi, diags ++ [diagMustBegin])
    else (mi, diags ++ [diagAdditionalContent])
  else (mi, diags).

(** [hclsyntax.ParseTraversalAbs([]byte(str), ...)]: the traversal of a text
    and the diagnostics of reading it. The function belongs to a library
    outside this file and is a parameter. *)
Variable ParseTraversalAbs : string -> Traversal * Diagnostics.

(** [func ParseModuleInstanceStr(str string) (ModuleInstance, tfdiags.Diagnostics)] *)
Definition ParseModuleInstanceStr (str : string)
  : ModuleInstance * Diagnostics :=
  let diags : Diagnostics := [] in
  let '(traversal, parseDiags) := ParseTraversalAbs str in
  let diags := diags ++ parseDiags in
  if HasErrors parseDiags then ([], diags)
  else
    let '(addr, addrDiags) := parseModuleInstance traversal in
    (addr, diags ++ addrDiags).

End Parser.

(** *** What the properties of the parser are stated with *)

Section ParserSpec.

Variable FromCtyValue : Q -> Z + string.

(** The key that the tokens after a module name give, and the tokens after
    it: the string of a string index, the integer of a number index that
    [FromCtyValue] converts, and no key when no index follows. *)
Inductive readsKey : Traversal -> instanceKey -> Traversal -> Prop :=
| readsKey_string (s : string) (rest : Traversal) :
    readsKey (TraverseIndex (ctyString s) :: rest) (stringKey s) rest
| readsKey_int (q : Q) (n : Z) (rest : Traversal) :
    FromCtyValue q = inl n ->
    readsKey (TraverseIndex (ctyNumber q) :: rest) (intKey n) rest
| readsKey_none (rest : Traversal) :
    (forall key rest', rest <> TraverseIndex key :: rest') ->
    readsKey rest NoKey rest.

(** No step starts at [rest]: it is empty, or it starts with a name that is
    not the keyword [module]. *)
Definition stopsPrefix (rest : Traversal) : Prop :=
  match rest with
  | [] => True
  | TraverseRoot name :: _ => name <> "module"
  | TraverseAttr name :: _ => name <> "module"
  | _ => False
  end.

(** [traversal] is the steps of [mi], each the keyword [module], a name and
    the tokens of its key, followed by [rest], at which no step starts. *)
Inductive parsesTo : Traversal -> ModuleInstance -> Traversal -> Prop :=
| parsesTo_stop (rest : Traversal) :
    stopsPrefix rest -> parsesTo rest [] rest
| parsesTo_step (kw : Traverser) (name : string) (tail : Traversal)
    (key : instanceKey) (tail' : Traversal) (mi : ModuleInstance)
    (rest : Traversal) :
    isModuleKeyword kw ->
    readsKey tail key tail' ->
    parsesTo tail' mi rest ->
    parsesTo (kw :: TraverseAttr name :: tail) (mkStep name key :: mi) rest.

End ParserSpec.

(** *** Rendering *)

(** The text of a string between double quotes: a double quote and a
    backslash inside it are preceded by a backslash, and every other byte is
    written as it is. *)
Fixpoint escapeString (s : string) : string :=
  match s with
  | EmptyString => EmptyString
  | String c s' =>
      if (Ascii.eqb c "034" || Ascii.eqb c "\")%bool
      then String "\" (String c (escapeString s'))
      else String c (escapeString s')
  end.

Definition quoteString (s : string) : string := dq +:+ escapeString s +:+ dq.

(** Modelled from the spec: [instanceKey.String()], which is declared beside
    this file in package [addrs]. The spec gives the text of a key as the key
    in brackets, where the key is a quoted string or a bare integer; the
    integer is written in decimal. [String] never asks for the text of
    [NoKey]. *)
Definition instanceKey_String (k : instanceKey) : string :=
  match k with
  | NoKey => EmptyString
  | intKey n => "[" +:+ NilZero.string_of_int (Z.to_int n) +:+ "]"
  | stringKey s => "[" +:+ quoteString s +:+ "]"
  end.

(** The loop of [String], with its variables [sep] and [buf]. *)
Fixpoint StringLoop (steps : ModuleInstance) (sep buf : string) : string :=
  match steps with
  | [] => buf
  | step :: steps' =>
      let buf := buf +:+ sep in
      let buf := buf +:+ "module." in
      let buf := buf +:+ Name step in
      let buf :=
        if decide (InstanceKey step <> NoKey)
        then buf +:+ instanceKey_String (InstanceKey step)
        else buf in
      StringLoop steps' "." buf
  end.

(** [func (m ModuleInstance) String() string] *)
Definition ModuleInstance_String (m : ModuleInstance) : string :=
  StringLoop m EmptyString EmptyString.

End addrs.

(** ** The address text syntax *)

Module syntax.
Import hcl addrs.

(** The classes of characters of the syntax, on ASCII. *)
Definition isLetter (c : ascii) : bool :=
  let n := nat_of_ascii c in
  ((65 <=? n) && (n <=? 90) || (97 <=? n) && (n <=? 122))%nat.

Definition isDigit (c : ascii) : bool :=
  let n := nat_of_ascii c in ((48 <=? n) && (n <=? 57))%nat.

Definition isIdentStart (c : ascii) : bool :=
  isLetter c || Ascii.eqb c "_".

Definition isIdentChar (c : ascii) : bool :=
  isLetter c || isDigit c || Ascii.eqb c "_" || Ascii.eqb c "-".

(** The longest prefix of [s] whose characters satisfy [p], and the rest. *)
Fixpoint spanWhile (p : ascii -> bool) (s : string) : string * string :=
  match s with
  | EmptyString => (EmptyString, EmptyString)
  | String c s' =>
      if p c then let '(a, b) := spanWhile p s' in (String c a, b)
      else (EmptyString, s)
  end.

(** A name at the head of [s]: a letter or an underscore, then letters,
    digits, underscores and dashes. *)
Definition scanName (s : string) : option (string * string) :=
  match s with
  | String c _ => if isIdentStart c then Some (spanWhile isIdentChar s) else None
  | EmptyString => None
  end.

(** The inside of a quoted string, after its opening quote, up to and
    including the closing quote. *)
Fixpoint scanQuoted (s : string) : option (string * string) :=
  match s with
  | EmptyString => None
  | String c s' =>
      if Ascii.eqb c "034" then Some (EmptyString, s')
      else if Ascii.eqb c "\" then
        match s' with
        | String e s'' =>
            if (Ascii.eqb e "034" || Ascii.eqb e "\")%bool
            then '(str, rest) ← scanQuoted s''; Some (String e str, rest)
            else None
        | EmptyString => None
        end
      else '(str, rest) ← scanQuoted s'; Some (String c str, rest)
  end.

(** The value of a bare integer. *)
Definition numberValue (digits : string) : option Q :=
  d ← NilZero.uint_of_string digits; Some (inject_Z (Z.of_N (N.of_uint d))).

(** A key after an opening bracket: a quoted string or a bare integer. *)
Definition scanKey (s : string) : option (ctyValue * string) :=
  match s with
  | EmptyString => None
  | String c s1 =>
      if Ascii.eqb c "034" then
        '(str, s2) ← scanQuoted s1; Some (ctyString str, s2)
      else
        let '(digits, s2) := spanWhile isDigit s in
        q ← numberValue digits; Some (ctyNumber q, s2)
  end.

(** The steps after the root name: a dot and a name, or a key in brackets.
    Every step reads at least one character, so [fuel] greater than the
    length of [s] is never used up. *)
Fixpoint scanSteps (fuel : nat) (s : string) : option Traversal :=
  match fuel with
  | O => None
  | S fuel =>
      match s with
      | EmptyString => Some []
      | String c s1 =>
          if Ascii.eqb c "." then
            '(name, s2) ← scanName s1;
            steps ← scanSteps fuel s2;
            Some (TraverseAttr name :: steps)
          else if Ascii.eqb c "[" then
            '(key, s2) ← scanKey s1;
            match s2 with
            | EmptyString => None
            | String c' s3 =>
                if Ascii.eqb c' "]" then
                  steps ← scanSteps fuel s3;
                  Some (TraverseIndex key :: steps)
                else None
            end
          else None
      end
  end.

(** The diagnostics of the reader: for a text that does not start with a
    name, and for a text that goes on with anything but a step. *)
Definition diagNeedsRoot : Diagnostic :=
  mkDiagnostic DiagError "Variable name required" "Must begin with a variable name.".

Definition diagBadStep : Diagnostic :=
  mkDiagnostic DiagError "Invalid address syntax"
    "A name must be followed by dot and a name, or by a bracketed key.".

(** Modelled from the spec: [hclsyntax.ParseTraversalAbs], the reader of the
    address text, which is not part of this file. The spec gives the syntax:
    dotted tokens, a root name, then attribute names after a dot and index
    keys in brackets, a key being a quoted string or a bare integer. A text
    outside this syntax is answered with an error diagnostic and no traversal;
    blanks, template sequences and escapes other than those of the quote and
    the backslash are outside it. *)
Definition ParseTraversalAbs (str : string) : Traversal * Diagnostics :=
  match scanName str with
  | None => ([], [diagNeedsRoot])
  | Some (root, rest) =>
      match scanSteps (S (String.length rest)) rest with
      | Some steps => (TraverseRoot root :: steps, [])
      | None => ([], [diagBadStep])
      end
  end.

(** The range of a Go [int] of 64 bits. *)
Definition minInt : Z := (- 2 ^ 63)%Z.
Definition maxInt : Z := (2 ^ 63 - 1)%Z.

(** Modelled from the spec: [gocty.FromCtyValue] into a Go [int], which is not
    part of this file. A number that is a whole number within the range of
    [int] is converted to it; the conversion of any other number fails. *)
Definition FromCtyValue (q : Q) : Z + string :=
  let r := Qred q in
  if (Pos.eqb (Qden r) 1 && (minInt <=? Qnum r)%Z && (Qnum r <=? maxInt)%Z)%bool
  then inl (Qnum r)
  else inr "value must be a whole number, between -9223372036854775808 and 9223372036854775807 inclusive".

(** [addrs.ParseModuleInstanceStr] over this reader and this conversion. *)
Definition ParseModuleInstanceStr (str : string) : ModuleInstance * Diagnostics :=
  addrs.ParseModuleInstanceStr FromCtyValue ParseTraversalAbs str.

(** *** Well-formed addresses and the tokens of an address *)

(** Every character of [s] satisfies [p]. *)
Definition allChars (p : ascii -> bool) (s : string) : bool :=
  forallb p (list_ascii_of_string s).

(** [s] is a name of the syntax: not empty, it starts with a letter or an
    underscore and holds letters, digits, underscores and dashes only. *)
Definition isName (s : string) : bool :=
  match s with
  | EmptyString => false
  | String c _ => isIdentStart c && allChars isIdentChar s
  end.

(** A printable character of ASCII that starts no template sequence. On
    these characters the quoting above is the quoting of Go ([%q]), and the
    reader needs no more than the syntax of the spec. *)
Definition plainChar (c : ascii) : bool :=
  let n := nat_of_ascii c in
  ((32 <=? n) && (n <=? 126))%nat
  && negb (Ascii.eqb c "$") && negb (Ascii.eqb c "%").

(** A key that the text syntax can carry: no key, an integer from zero to
    the largest [int] (a bare integer has no sign), or a string of plain
    characters. *)
Definition plainKey (k : instanceKey) : bool :=
  match k with
  | NoKey => true
  | intKey n => ((0 <=? n) && (n <=? maxInt))%Z
  | stringKey s => allChars plainChar s
  end.

(** A step whose name and key the text syntax can carry. *)
Definition wellFormedStep (step : ModuleInstanceStep) : bool :=
  isName (Name step) && plainKey (InstanceKey step).

(** The scan of a run of characters stops at [rest]. *)
Definition stops (p : ascii -> bool) (rest : string) : Prop :=
  match rest with
  | EmptyString => True
  | String c _ => p c = false
  end.

(** The tokens of a key, of a step, and of an address read as a relative
    traversal. *)
Definition keyTokens (k : instanceKey) : Traversal :=
  match k with
  | NoKey => []
  | intKey n => [TraverseIndex (ctyNumber (inject_Z n))]
  | stringKey s => [TraverseIndex (ctyString s)]
  end.

Definition stepTokens (step : ModuleInstanceStep) : Traversal :=
  TraverseAttr "module" :: TraverseAttr (Name step) :: keyTokens (InstanceKey step).

Definition addressTokens (m : ModuleInstance) : Traversal :=
  flat_map stepTokens m.

(** The text of a step after its keyword, and the text of the steps that
    follow the first one. *)
Definition stepText (step : ModuleInstanceStep) : string :=
  "." +:+ Name step +:+
  (if decide (InstanceKey step <> NoKey)
   then instanceKey_String (InstanceKey step) else EmptyString).

Fixpoint tailText (steps : ModuleInstance) : string :=
  match steps with
  | [] => EmptyString
  | step :: steps' => ".module" +:+ stepText step +:+ tailText steps'
  end.

End syntax.

(** ** Package [terraform] *)

Module terraform.

(** A result of a function that may panic. *)
Inductive result (A : Type) : Type :=
| Ok (a : A)
| Panic (msg : string).
Arguments Ok {A} a.
Arguments Panic {A} msg.

(** [strings.Join(elems, sep)] *)
Fixpoint Join (elems : list string) (sep : string) : string :=
  match elems with
  | [] => EmptyString
  | [e] => e
  | e :: rest => e +:+ sep +:+ Join rest sep
  end.

(** *** The module node of the configuration graph *)

(** The fields of [config.Output], [config.Config], [config.Module] and the
    method [Config] of [module.Tree] that this file reads. *)
Record config_Output : Type := mkOutput { Output_Name : string }.
Record config_Config : Type := mkConfig { Outputs : list config_Output }.
Record config_Module : Type := mkModule { Module_Name : string }.
Record module_Tree : Type := mkTree { Config : config_Config }.

(** [type GraphNodeConfigModule struct { Path []string; Module *config.Module;
     Tree *module.Tree }] *)
Record GraphNodeConfigModule : Type := mkGraphNodeConfigModule {
  n_Path : list string;
  n_Module : config_Module;
  n_Tree : module_Tree
}.

(** [func (n *GraphNodeConfigModule) Name() string] *)
Definition GraphNodeConfigModule_Name (n : GraphNodeConfigModule) : string :=
  "module." +:+ Module_Name (n_Module n).

(** [func (n *GraphNodeConfigModule) DependableName() []string] *)
Definition DependableName (n : GraphNodeConfigModule) : list string :=
  let config := Config (n_Tree n) in
  let result := [GraphNodeConfigModule_Name n] in
  fold_left
    (fun result o =>
       result ++ [GraphNodeConfigModule_Name n +:+ "." +:+ Output_Name o])
    (Outputs config) result.

(** *** The module node: what it depends on and its providers *)

Section Dependencies.

(** [config.InterpolatedVariable], an interface of package [config], and
    [varNameForVar], which another file of package [terraform] declares. *)
Context {InterpolatedVariable : Type}.
Variable varNameForVar : InterpolatedVariable -> string.

(** [func (n *GraphNodeConfigModule) DependentOn() []string], where [vars] is
    the map [n.Module.RawConfig.Variables] with its entries in the order in
    which [range] visits them. *)
Definition DependentOn (vars : list (string * InterpolatedVariable))
  : list string :=
  fold_left
    (fun result kv =>
       let vn := varNameForVar kv.2 in
       if decide (vn <> EmptyString) then result ++ [vn] else result)
    vars [].

End Dependencies.

(** The fields of [config.ProviderConfig] and [config.Resource] that
    [ProvidedBy] reads. *)
Record config_ProviderConfig : Type := mkProviderConfig {
  ProviderConfig_Name : string
}.

Record config_Resource : Type := mkResource {
  Resource_Type : string;
  Resource_Provider : string
}.

Section Providers.

(** [resourceProvider(t, alias string) string], which another file of package
    [terraform] declares. *)
Variable resourceProvider : string -> string -> string.

(** The order in which [range] visits the keys of a map. *)
Variable rangeKeys : gset string -> list string.

(** The map [providers] of [ProvidedBy] after its first two loops, where
    [ProviderConfigs] and [Resources] are these fields of [n.Tree.Config()]. *)
Definition providersOf (ProviderConfigs : list config_ProviderConfig)
    (Resources : list config_Resource) : gset string :=
  let providers := ∅ in
  let providers :=
    fold_left (fun providers p => {[ ProviderConfig_Name p ]} ∪ providers)
      ProviderConfigs providers in
  fold_left
    (fun providers r =>
       {[ resourceProvider (Resource_Type r) (Resource_Provider r) ]} ∪ providers)
    Resources providers.

(** [func (n *GraphNodeConfigModule) ProvidedBy() []string] *)
Definition ProvidedBy (ProviderConfigs : list config_ProviderConfig)
    (Resources : list config_Resource) : list string :=
  let providers := providersOf ProviderConfigs Resources in
  fold_left (fun result p => result ++ [p]) (rangeKeys providers) [].

End Providers.

(** *** Vertices *)

(** A vertex that implements [graphNodeModuleWrappable]: a node of the
    configuration with its name, which may also implement
    [graphNodeModuleSkippable] ([skip] is then what [FlattenSkip] returns), or
    a [graphNodeModuleFlatWrap] around such a vertex. *)
Inductive Wrappable : Type :=
| configNode (name : string) (skip : option bool)
| graphNodeModuleFlatWrap (wrapped : Wrappable) (Path : list string)
    (PathString : string).

(** [Name()] of a wrappable vertex; on a flat wrap it is
    [func (n *graphNodeModuleFlatWrap) Name() string]. *)
Fixpoint Name (wn : Wrappable) : string :=
  match wn with
  | configNode name _ => name
  | graphNodeModuleFlatWrap wrapped _ PathString =>
      PathString +:+ "." +:+ Name wrapped
  end.

(** A vertex of a graph, by what it implements: a wrappable vertex, or a
    vertex that is not wrappable, with what [dag.VertexName] prints for it and
    its [FlattenSkip] if it has one. *)
Inductive Vertex : Type :=
| wrappableVertex (wn : Wrappable)
| otherVertex (vertexName : string) (skip : option bool).

(** [sn, ok := v.(graphNodeModuleSkippable)] and [sn.FlattenSkip()]:
    [None] when the assertion fails. *)
Definition FlattenSkip (v : Vertex) : option bool :=
  match v with
  | wrappableVertex (configNode _ skip) => skip
  | wrappableVertex (graphNodeModuleFlatWrap _ _ _) => None
  | otherVertex _ skip => skip
  end.

(** [dag.VertexName(v)] *)
Definition VertexName (v : Vertex) : string :=
  match v with
  | wrappableVertex wn => Name wn
  | otherVertex vertexName _ => vertexName
  end.

(** *** Graphs *)

(** The identity of a vertex: the address of the object it points to. *)
Abbreviation ptr := nat.

(** Modelled from the spec: the graph of package [dag] with the path of
    package [terraform], which are not part of this file. A graph stores
    vertices, each under its identity, and a set of edges between
    identities. *)
Record Graph : Type := mkGraph {
  Path : list string;
  Vertices : gmap nat Vertex;
  Edges : gset (nat * nat)
}.

(** Modelled from the spec: [graph.Remove(v)] of package [dag] takes the
    vertex and its edges out of the graph. *)
Definition Remove (g : Graph) (v : ptr) : Graph :=
  mkGraph (Path g) (delete v (Vertices g))
    (filter (fun e => e.1 <> v /\ e.2 <> v) (Edges g)).

(** The end of an edge after a replacement. *)
Definition rewire (original replacement : ptr) (a : ptr) : ptr :=
  if decide (a = original) then replacement else a.

(** Modelled from the spec: [graph.Replace(original, replacement)] of package
    [dag] adds the replacement, rewires every inbound and outbound edge of the
    original to it, and takes the original out. [obj] is the object at the
    address [replacement]. *)
Definition Replace (g : Graph) (original replacement : ptr) (obj : Vertex)
  : Graph :=
  mkGraph (Path g)
    (delete original (<[replacement := obj]> (Vertices g)))
    (set_map (prod_map (rewire original replacement) (rewire original replacement))
       (Edges g)).

(** *** Flattening *)

(** [type graphNodeModuleExpanded struct], with the fields [FlattenGraph] reads. *)
Record graphNodeModuleExpanded : Type := mkExpanded {
  Original : ptr;
  Graph_ : Graph
}.

(** [func (n *graphNodeModuleExpanded) Subgraph() *Graph] *)
Definition Subgraph (n : graphNodeModuleExpanded) : Graph := Graph_ n.

(** The block that computes [pathStr]; [graph.Path[1:]] panics on an empty
    path. *)
Definition pathString (path : list string) : result string :=
  match path with
  | [] => Panic "runtime error: slice bounds out of range [1:0]"
  | _ :: rest =>
      let parts := fold_left (fun parts p => parts ++ ["module"; p]) rest [] in
      Ok (Join parts ".")
  end.

(** The loop over [graph.Vertices()]. [next] is the address the next
    allocation returns; [&graphNodeModuleFlatWrap{...}] allocates. *)
Fixpoint flattenLoop (pathStr : string) (vs : list (ptr * Vertex))
    (next : ptr) (graph : Graph) : result (ptr * Graph) :=
  match vs with
  | [] => Ok (next, graph)
  | (v, obj) :: vs' =>
      match FlattenSkip obj with
      | Some true => flattenLoop pathStr vs' next (Remove graph v)
      | _ =>
          match obj with
          | otherVertex _ _ => Panic ("unwrappable node: " +:+ VertexName obj)
          | wrappableVertex wn =>
              flattenLoop pathStr vs' (S next)
                (Replace graph v next
                   (wrappableVertex
                      (graphNodeModuleFlatWrap wn (Path graph) pathStr)))
          end
      end
  end.

(** Modelled from the spec: [graph.Vertices()] of package [dag] returns the
    vertices of the graph in an order that is not specified. [vs] is such a
    list when it holds every vertex of the graph, under its identity, once. *)
Definition VerticesList (g : Graph) (vs : list (ptr * Vertex)) : Prop :=
  vs ≡ₚ map_to_list (Vertices g).

(** [func (n *graphNodeModuleExpanded) FlattenGraph() *Graph], where [vs] is
    the list that [graph.Vertices()] returns and [next] is the allocation
    state. *)
Definition FlattenGraph (vs : list (ptr * Vertex)) (next : ptr)
    (n : graphNodeModuleExpanded) : result (ptr * Graph) :=
  let graph := Subgraph n in
  match pathString (Path graph) with
  | Panic msg => Panic msg
  | Ok pathStr => flattenLoop pathStr vs next graph
  end.

(** *** What the properties of flattening are stated with *)

(** The vertex declares itself skippable: it implements
    [graphNodeModuleSkippable] and its [FlattenSkip] returns true. *)
Definition skipped (obj : Vertex) : bool :=
  match FlattenSkip obj with
  | Some true => true
  | _ => false
  end.

(** The vertex [a] of [g] is retained: it is in the graph and is not skipped. *)
Definition retained (g : Graph) (a : ptr) : Prop :=
  exists obj, Vertices g !! a = Some obj /\ skipped obj = false.

(** The vertex that replaces the wrappable vertex [wn]. *)
Definition flatWrap (path : list string) (pathStr : string) (wn : Wrappable)
  : Vertex :=
  wrappableVertex (graphNodeModuleFlatWrap wn path pathStr).

(** Every address of the graph is below [next], the address of the next
    allocation: what is allocated later is a new object. *)
Definition allocOk (next : ptr) (g : Graph) : Prop :=
  (forall a, a ∈ dom (Vertices g) -> a < next) /\
  (forall e, e ∈ Edges g -> e.1 < next /\ e.2 < next).

(** The identity that the loop gives to [x]: the vertices of [vs] that are
    not skipped get the addresses allocated from [next] on, in their order. *)
Fixpoint renaming (vs : list (ptr * Vertex)) (next : ptr) (x : ptr) : ptr :=
  match vs with
  | [] => x
  | (v, obj) :: vs' =>
      if skipped obj then renaming vs' next x
      else renaming vs' (S next) (rewire v next x)
  end.

(** The addresses of the vertices of [vs] that are skipped. *)
Definition skippedKeys (vs : list (ptr * Vertex)) : list ptr :=
  (filter (fun p => skipped p.2 = true) vs).*1.

(** The edges of [es] between vertices of [vs]. *)
Definition edgesAmong (vs : gset nat) (es : gset (nat * nat)) : gset (nat * nat) :=
  filter (fun e => e.1 ∈ vs /\ e.2 ∈ vs) es.

(** The addresses of the retained vertices of [g]. *)
Definition retainedSet (g : Graph) : gset nat :=
  dom (filter (fun p => skipped p.2 = false) (Vertices g)).

(** The addresses of the skipped vertices of [g]. *)
Definition skippedSet (g : Graph) : gset nat :=
  dom (filter (fun p => skipped p.2 = true) (Vertices g)).

(** The path string in the words of the spec: for each step name after the
    root, the segment [module] and the name, all joined by dots. *)
Fixpoint qualifiedPath (steps : list string) : string :=
  match steps with
  | [] => EmptyString
  | [p] => "module." +:+ p
  | p :: rest => "module." +:+ p +:+ "." +:+ qualifiedPath rest
  end.

End terraform.

(** ** Example values *)

Module examples.
Import hcl addrs terraform.

(** A module call [net] whose module declares the output [ip]. *)
Definition netNode : GraphNodeConfigModule :=
  mkGraphNodeConfigModule ["root"; "net"] (mkModule "net")
    (mkTree (mkConfig [mkOutput "ip"])).

(** The graph of the module [net]: the resource [aws_instance.web] alone. *)
Definition webExpanded : graphNodeModuleExpanded :=
  mkExpanded 0
    (mkGraph ["root"; "net"]
       {[ 0 := wrappableVertex (configNode "aws_instance.web" None) ]} ∅).

(** The same resource in a graph whose path is the root alone. *)
Definition rootExpanded : graphNodeModuleExpanded :=
  mkExpanded 0
    (mkGraph ["root"]
       {[ 0 := wrappableVertex (configNode "aws_instance.web" None) ]} ∅).

(** Two resources and a vertex that declares itself skippable, with an edge
    between the resources and two edges at the skippable vertex. *)
Definition threeExpanded : graphNodeModuleExpanded :=
  mkExpanded 0
    (mkGraph ["root"; "net"]
       (<[ 0 := wrappableVertex (configNode "aws_instance.web" None) ]>
        (<[ 1 := wrappableVertex (configNode "aws_instance.db" (Some false)) ]>
         {[ 2 := otherVertex "inputs" (Some true) ]}))
       {[ (0, 1); (0, 2); (2, 1) ]}).

(** A graph with a vertex that is neither wrappable nor skippable. *)
Definition brokenExpanded : graphNodeModuleExpanded :=
  mkExpanded 0
    (mkGraph ["root"; "net"]
       (<[ 0 := wrappableVertex (configNode "aws_instance.web" None) ]>
        {[ 1 := otherVertex "stray" None ]})
       ∅).

(** What [FlattenGraph] returns for them. *)
Definition webFlattened : Graph :=
  mkGraph ["root"; "net"]
    {[ 1 := wrappableVertex
              (graphNodeModuleFlatWrap (configNode "aws_instance.web" None)
                 ["root"; "net"] "module.net") ]} ∅.

Definition rootFlattened : Graph :=
  mkGraph ["root"]
    {[ 1 := wrappableVertex
              (graphNodeModuleFlatWrap (configNode "aws_instance.web" None)
                 ["root"] EmptyString) ]} ∅.

Definition threeFlattened : Graph :=
  mkGraph ["root"; "net"]
    (<[ 3 := wrappableVertex
               (graphNodeModuleFlatWrap (configNode "aws_instance.web" None)
                  ["root"; "net"] "module.net") ]>
     {[ 4 := wrappableVertex
               (graphNodeModuleFlatWrap (configNode "aws_instance.db" (Some false))
                  ["root"; "net"] "module.net") ]})
    {[ (3, 4) ]}.

End examples.

(** * Properties *)

Import hcl addrs.

(** ** Containment of addresses *)

Section TargetingFacts.

Context {resource resourceInstance otherTargetable : Type}.

Lemma containsLoop_spec (rest to : ModuleInstance) (i : nat) :
  i + length rest <= length to ->
  exists r : bool,
    containsLoop i rest to = Some r /\
    (r = true <-> forall j s, rest !! j = Some s -> to !! (i + j) = Some s).
Proof.
  revert i. induction rest as [|ourStep rest IH]; intros i Hlen; simpl in *.
  - exists true. split; [reflexivity|]. split; [|reflexivity].
    intros _ j s Hj. destruct j; discriminate.
  - destruct (to !! i) as [otherStep|] eqn:Hi.
    2: { apply lookup_ge_None in Hi. lia. }
    destruct (decide (ourStep <> otherStep)) as [Hne|Heq].
    + exists false. split; [reflexivity|]. split; [discriminate|].
      intros H. specialize (H 0 ourStep eq_refl).
      rewrite Nat.add_0_r, Hi in H. congruence.
    + assert (ourStep = otherStep) as ->
        by (destruct (decide (ourStep = otherStep)); [assumption|contradiction]).
      destruct (IH (S i)) as (r & Hr & Hiff); [lia|].
      exists r. split; [assumption|]. rewrite Hiff. split.
      * intros H [|j] s Hj; simpl in Hj.
        -- rewrite Nat.add_0_r. congruence.
        -- replace (i + S j) with (S i + j) by lia. auto.
      * intros H j s Hj. replace (S i + j) with (i + S j) by lia. apply H. exact Hj.
Qed.

Lemma step_eq_fields (sa sb : ModuleInstanceStep) :
  sa = sb <-> Name sa = Name sb /\ InstanceKey sa = InstanceKey sb.
Proof.
  split; [intros ->; auto|]. destruct sa, sb; simpl. intros [-> ->]. reflexivity.
Qed.

Lemma containsModuleInstance_spec (a b : ModuleInstance) :
  exists r : bool,
    containsModuleInstance a b = Some r /\
    (r = true <->
     length a <= length b /\
     forall i sa, a !! i = Some sa ->
       exists sb, b !! i = Some sb /\
         Name sa = Name sb /\ InstanceKey sa = InstanceKey sb).
Proof.
  unfold containsModuleInstance.
  destruct (Nat.ltb_spec (length b) (length a)) as [Hlt|Hge].
  - exists false. split; [reflexivity|]. split; [discriminate|]. intros [H _]. lia.
  - destruct (containsLoop_spec a b 0) as (r & Hr & Hiff); [simpl; lia|].
    exists r. split; [assumption|]. rewrite Hiff. simpl. split.
    + intros H. split; [assumption|]. intros i sa Hi. exists sa. auto.
    + intros [_ H] j s Hj. destruct (H j s Hj) as (sb & Hb & Hn & Hk).
      rewrite Hb. f_equal. symmetry. apply step_eq_fields. auto.
Qed.

(** C1. [TargetContains] never panics. For two module instances [a] and [b]
    it returns true iff [b] has at least as many steps as [a] and every step
    of [a] has the name and the instance key of the step of [b] at the same
    position. For an [absResource] or an [absResourceInstance] the answer is
    the one for its [Module] field, and for any other [Targetable] it is
    false. *)
Theorem TargetContains_prefix_rule (a : ModuleInstance) :
  (forall b : ModuleInstance, exists r : bool,
      TargetContains a
        (TModuleInstance b : Targetable resource resourceInstance otherTargetable)
        = Some r /\
      (r = true <->
       length a <= length b /\
       forall i sa, a !! i = Some sa ->
         exists sb, b !! i = Some sb /\
           Name sa = Name sb /\ InstanceKey sa = InstanceKey sb)) /\
  (forall to : absResource resource,
      TargetContains a
        (TAbsResource to : Targetable resource resourceInstance otherTargetable)
      = TargetContains a
          (TModuleInstance (absResource_Module to)
             : Targetable resource resourceInstance otherTargetable)) /\
  (forall to : absResourceInstance resourceInstance,
      TargetContains a
        (TAbsResourceInstance to : Targetable resource resourceInstance otherTargetable)
      = TargetContains a
          (TModuleInstance (absResourceInstance_Module to)
             : Targetable resource resourceInstance otherTargetable)) /\
  (forall to : otherTargetable,
      TargetContains a
        (TOther to : Targetable resource resourceInstance otherTargetable)
      = Some false).
Proof.
  split; [|repeat split].
  intros b. simpl. apply containsModuleInstance_spec.
Qed.

Local Abbreviation T := (Targetable resource resourceInstance otherTargetable).

Lemma containsModuleInstance_true (a b : ModuleInstance) :
  containsModuleInstance a b = Some true <-> a `prefix_of` b.
Proof.
  destruct (containsModuleInstance_spec a b) as (r & Hr & Hiff). rewrite Hr.
  split.
  - intros Heq. assert (r = true) as Hrt by congruence.
    apply Hiff in Hrt as [Hlen Hpos]. exists (drop (length a) b).
    apply list_eq. intros i. destruct (a !! i) as [sa|] eqn:Hi.
    + destruct (Hpos i sa Hi) as (sb & Hb & Hn & Hk).
      rewrite lookup_app_l by (by apply lookup_lt_Some in Hi).
      etransitivity; [exact Hb|]. symmetry. etransitivity; [exact Hi|].
      f_equal. by apply step_eq_fields.
    + apply lookup_ge_None in Hi. rewrite lookup_app_r by assumption.
      rewrite lookup_drop. f_equal. lia.
  - intros [k ->]. f_equal. apply Hiff. split.
    + rewrite length_app. lia.
    + intros i sa Hi. exists sa. split; [|done].
      by apply lookup_app_l_Some.
Qed.

(** X1. Containment is reflexive: a module instance contains itself. *)
Theorem TargetContains_reflexive (m : ModuleInstance) :
  TargetContains m (TModuleInstance m : T) = Some true.
Proof. simpl. by apply containsModuleInstance_true. Qed.

(** X2. Containment is transitive on module instances. *)
Theorem TargetContains_transitive (a b c : ModuleInstance) :
  TargetContains a (TModuleInstance b : T) = Some true ->
  TargetContains b (TModuleInstance c : T) = Some true ->
  TargetContains a (TModuleInstance c : T) = Some true.
Proof.
  simpl. rewrite !containsModuleInstance_true. intros Hab Hbc.
  by transitivity b.
Qed.

(** X3. A module instance contains each of its children, and a child does
    not contain its parent. *)
Theorem TargetContains_Child (m : ModuleInstance) (name : string)
    (key : instanceKey) :
  TargetContains m (TModuleInstance (Child m name key) : T) = Some true /\
  TargetContains (Child m name key) (TModuleInstance m : T) = Some false.
Proof.
  simpl. split.
  - apply containsModuleInstance_true. by exists [mkStep name key].
  - unfold containsModuleInstance, Child. rewrite length_app. simpl.
    by destruct (Nat.ltb_spec (length m) (length m + 1)); [|lia].
Qed.

(** X4. Containment is antisymmetric: two module instances that contain each
    other are equal. *)
Theorem TargetContains_antisymmetric (a b : ModuleInstance) :
  TargetContains a (TModuleInstance b : T) = Some true ->
  TargetContains b (TModuleInstance a : T) = Some true ->
  a = b.
Proof.
  simpl. rewrite !containsModuleInstance_true. intros Hab Hba.
  by apply (anti_symm prefix).
Qed.

(** X5. The root module instance contains every module instance and every
    resource address, and no other module instance contains the root. *)
Theorem TargetContains_root (m : ModuleInstance) :
  TargetContains RootModuleInstance (TModuleInstance m : T) = Some true /\
  (forall to : absResource resource,
      TargetContains RootModuleInstance (TAbsResource to : T) = Some true) /\
  (forall to : absResourceInstance resourceInstance,
      TargetContains RootModuleInstance (TAbsResourceInstance to : T) = Some true) /\
  (TargetContains m (TModuleInstance RootModuleInstance : T) = Some true <->
   m = RootModuleInstance).
Proof.
  split; [reflexivity|]. split; [reflexivity|]. split; [reflexivity|].
  simpl. rewrite containsModuleInstance_true. unfold RootModuleInstance. split.
  - intros [k Hk]. symmetry in Hk. by apply app_eq_nil in Hk as [-> _].
  - by intros ->.
Qed.

(** X7. The module instances that contain a given one form a chain: of two of
    them, one contains the other. *)
Theorem TargetContains_chain (a b c : ModuleInstance) :
  TargetContains a (TModuleInstance c : T) = Some true ->
  TargetContains b (TModuleInstance c : T) = Some true ->
  TargetContains a (TModuleInstance b : T) = Some true \/
  TargetContains b (TModuleInstance a : T) = Some true.
Proof.
  simpl. rewrite !containsModuleInstance_true. apply prefix_weak_total.
Qed.

(** X18. The unkeyed shim is one to one, and it keeps containment as it is
    between the static paths: the shim of [m1] contains the shim of [m2]
    exactly when [m2] starts with the names of [m1]. *)
Theorem UnkeyedInstanceShim_contains (m1 m2 : Module_) :
  (UnkeyedInstanceShim m1 = UnkeyedInstanceShim m2 -> m1 = m2) /\
  (TargetContains (UnkeyedInstanceShim m1)
     (TModuleInstance (UnkeyedInstanceShim m2) : T) = Some true <->
   m1 `prefix_of` m2).
Proof.
  assert (Inj (=) (=) (fun name => mkStep name NoKey)) as Hinj
    by (intros x y H; by inversion H).
  unfold UnkeyedInstanceShim.
  change (@map string ModuleInstanceStep) with (@fmap list _ string ModuleInstanceStep).
  split.
  - apply (inj (fmap _)).
  - simpl. rewrite containsModuleInstance_true. split.
    + intros [k Hk]. apply fmap_app_inv in Hk as (l1 & l2 & H1 & H2 & ->).
      apply (inj (fmap _)) in H1. subst. by exists l2.
    + intros [k ->]. eexists. apply fmap_app.
Qed.

End TargetingFacts.

(** The witness of X2: the address [a], its child [b] with the key [x], and
    the child [c] of that one. *)
Lemma TargetContains_transitive_witness :
  TargetContains [mkStep "a" NoKey]
    (TModuleInstance
       [mkStep "a" NoKey; mkStep "b" (stringKey "x"); mkStep "c" NoKey]
     : Targetable unit unit unit)
  = Some true.
Proof.
  apply (TargetContains_transitive
           [mkStep "a" NoKey]
           [mkStep "a" NoKey; mkStep "b" (stringKey "x")]
           [mkStep "a" NoKey; mkStep "b" (stringKey "x"); mkStep "c" NoKey]);
    reflexivity.
Defined.

(** The witness of antisymmetry: the address [a], [b] with the key [x]
    contains itself. *)
Lemma TargetContains_antisymmetric_witness :
  [mkStep "a" NoKey; mkStep "b" (stringKey "x")]
  = [mkStep "a" NoKey; mkStep "b" (stringKey "x")].
Proof.
  apply (TargetContains_antisymmetric (resource := unit)
           (resourceInstance := unit) (otherTargetable := unit)
           [mkStep "a" NoKey; mkStep "b" (stringKey "x")]
           [mkStep "a" NoKey; mkStep "b" (stringKey "x")]);
    reflexivity.
Defined.

(** The witness of the chain: the root and the address [a] both contain
    [a], [b]; the root contains [a]. *)
Lemma TargetContains_chain_witness :
  TargetContains RootModuleInstance
    (TModuleInstance [mkStep "a" NoKey] : Targetable unit unit unit)
  = Some true \/
  TargetContains [mkStep "a" NoKey]
    (TModuleInstance RootModuleInstance : Targetable unit unit unit)
  = Some true.
Proof.
  apply (TargetContains_chain RootModuleInstance [mkStep "a" NoKey]
           [mkStep "a" NoKey; mkStep "b" NoKey]);
    reflexivity.
Defined.

(** The prefix rule on examples: an address contains a longer address that
    starts with its steps, not the other way round, and steps with different
    keys do not match. *)
Lemma TargetContains_examples :
  TargetContains [mkStep "a" NoKey]
    (TModuleInstance [mkStep "a" NoKey; mkStep "b" (stringKey "x")]
     : Targetable unit unit unit) = Some true /\
  TargetContains [mkStep "a" NoKey; mkStep "b" (stringKey "x")]
    (TModuleInstance [mkStep "a" NoKey] : Targetable unit unit unit)
  = Some false /\
  TargetContains [mkStep "a" (intKey 1)]
    (TModuleInstance [mkStep "a" (intKey 2)] : Targetable unit unit unit)
  = Some false /\
  TargetContains [mkStep "a" NoKey]
    (TModuleInstance [mkStep "a" (intKey 2)] : Targetable unit unit unit)
  = Some false.
Proof. repeat split. Qed.

(** The unkeyed shim keeps the names in their order and gives no step a
    key. *)
Lemma UnkeyedInstanceShim_steps (m : Module_) :
  length (UnkeyedInstanceShim m) = length m /\
  (forall i, UnkeyedInstanceShim m !! i
             = (fun name => mkStep name NoKey) <$> m !! i) /\
  UnkeyedInstanceShim ["a"; "b"] = [mkStep "a" NoKey; mkStep "b" NoKey].
Proof.
  unfold UnkeyedInstanceShim. split; [apply length_map|]. split; [|reflexivity].
  intros i. apply list_lookup_fmap.
Qed.

(** ** The address parser *)

Section ParserFacts.

Variable FromCtyValue : Q -> Z + string.

Local Abbreviation loop := (parsePrefixLoop FromCtyValue).

(** One iteration of the loop, case by case on the tokens it reads; the
    calls of the loop on what is left stay folded. *)
Ltac loop_cases remain :=
  let name := fresh "name" in
  let Hkw := fresh "Hkw" in
  destruct remain as [|[name|name| |] remain]; simpl;
  [ | | | | ];
  try (destruct (String.eqb name "module") eqn:Hkw; simpl;
       [destruct remain as [|[?|?|?|] remain]; simpl;
        [ | | | | ];
        try (destruct remain as [|[?|?|[?|?|]|] remain]; [simpl|..]; cbv beta match)
       |]);
  repeat match goal with
         | |- context [FromCtyValue ?q] => destruct (FromCtyValue q) eqn:?
         end.

Lemma parsePrefixLoop_acc_aux (n : nat) :
  forall remain mi diags, length remain < n ->
    loop remain mi diags =
    (let '(mi', r, extra) := loop remain [] [] in (mi ++ mi', r, diags ++ extra)).
Proof.
  induction n as [|n IH]; intros remain mi diags Hlen; [lia|].
  loop_cases remain; simpl in Hlen;
    rewrite ?app_nil_r; try reflexivity.
  all: repeat match goal with
       | |- context [parsePrefixLoop _ ?r (?m ++ [?s]) ?d] =>
           rewrite (IH r (m ++ [s]) d) by (simpl; lia)
       | |- context [parsePrefixLoop _ ?r [?s] ?d] =>
           rewrite (IH r [s] d) by (simpl; lia)
       end.
  all: match goal with
       | |- context [parsePrefixLoop _ ?r [] []] =>
           destruct (parsePrefixLoop FromCtyValue r [] []) as [[? ?] ?]
       end.
  all: simpl; rewrite <- ?app_assoc; reflexivity.
Qed.

Lemma parsePrefixLoop_acc (remain : Traversal) (mi : ModuleInstance)
    (diags : Diagnostics) :
  loop remain mi diags =
  (let '(mi', r, extra) := loop remain [] [] in (mi ++ mi', r, diags ++ extra)).
Proof. apply (parsePrefixLoop_acc_aux (S (length remain))). lia. Qed.

Lemma prefixDiag_NeedsName : prefixDiag diagNeedsName.
Proof. split; discriminate. Qed.

Lemma prefixDiag_NeedsModuleName : prefixDiag diagNeedsModuleName.
Proof. split; discriminate. Qed.

Lemma prefixDiag_InvalidIndex (err : string) : prefixDiag (diagInvalidIndex err).
Proof. split; discriminate. Qed.

Lemma prefixDiag_InvalidKey : prefixDiag diagInvalidKey.
Proof. split; discriminate. Qed.

Create HintDb parser.

#[local] Hint Resolve prefixDiag_NeedsName prefixDiag_NeedsModuleName
  prefixDiag_InvalidIndex prefixDiag_InvalidKey : parser.

Lemma parsePrefixLoop_suffix_aux (n : nat) :
  forall remain, length remain < n ->
    let '(mi', r, extra) := loop remain [] [] in
    (exists consumed, remain = consumed ++ r) /\ Forall prefixDiag extra.
Proof.
  induction n as [|n IH]; intros remain Hlen; [lia|].
  loop_cases remain; simpl in Hlen.
  all: try (split; [first [by exists []|eexists; by rewrite app_nil_r]|];
            repeat constructor; auto with parser).
  all: rewrite parsePrefixLoop_acc.
  all: match goal with
       | |- context [parsePrefixLoop _ ?r [] []] =>
           specialize (IH r ltac:(simpl; lia));
           destruct (parsePrefixLoop FromCtyValue r [] []) as [[? ?] ?]
       end.
  all: destruct IH as [[c Hc] HF]; split;
    [eexists; rewrite Hc; rewrite ?app_comm_cons; reflexivity
    |simpl; repeat constructor; auto with parser].
Qed.

Lemma parsePrefixLoop_suffix (traversal : Traversal) :
  let '(mi', r, extra) := loop traversal [] [] in
  (exists consumed, traversal = consumed ++ r) /\ Forall prefixDiag extra.
Proof. apply (parsePrefixLoop_suffix_aux (S (length traversal))). lia. Qed.

Lemma hasDetail_app_prefix (detail : string) (pdiags : Diagnostics)
    (d : Diagnostic) :
  Forall (fun x => Detail x <> detail) pdiags ->
  hasDetail detail (pdiags ++ [d]) <-> Detail d = detail.
Proof.
  intros HF. unfold hasDetail. split.
  - intros (x & Hin & Hx). apply in_app_or in Hin as [Hin|[->|[]]]; [|assumption].
    rewrite Forall_forall in HF. apply list_elem_of_In in Hin.
    exfalso. exact (HF x Hin Hx).
  - intros Hd. exists d. split; [|assumption]. apply in_or_app. right. by left.
Qed.

Lemma hasDetail_prefix_none (detail : string) (pdiags : Diagnostics) :
  Forall (fun x => Detail x <> detail) pdiags -> ~ hasDetail detail pdiags.
Proof.
  intros HF (x & Hin & Hx). rewrite Forall_forall in HF.
  apply list_elem_of_In in Hin. exact (HF x Hin Hx).
Qed.

Lemma normalizeRemain_length (remain : Traversal) :
  length (normalizeRemain remain) = length remain.
Proof. destruct remain as [|[]]; reflexivity. Qed.

(** C5. The unconsumed remainder is the value of [remain] when the loop of
    the prefix parser ends ([parseModuleInstancePrefix] returns it with its
    head normalised). It is a suffix of the input, so the test of the code,
    that the returned remainder is as long as the input, holds exactly when
    the remainder is the whole input. [parseModuleInstance] returns the
    address of the prefix parser, and its diagnostics followed by: the
    diagnostic that the address must begin with the module keyword, exactly
    when the remainder is not empty and is the whole input; the diagnostic of
    additional invalid content, exactly when the remainder is not empty and
    shorter than the input; and nothing when the remainder is empty. *)
Theorem parseModuleInstance_remainder_diagnostic (traversal : Traversal) :
  let '(mi, remain, pdiags) := parsePrefixLoop FromCtyValue traversal [] [] in
  let '(mi', diags) := parseModuleInstance FromCtyValue traversal in
  mi' = mi /\
  (exists consumed, traversal = consumed ++ remain) /\
  (length (normalizeRemain remain) = length traversal <-> remain = traversal) /\
  (hasDetail (Detail diagMustBegin) diags <->
   remain <> [] /\ remain = traversal) /\
  (hasDetail (Detail diagAdditionalContent) diags <->
   remain <> [] /\ length remain < length traversal) /\
  (remain <> [] /\ remain = traversal -> diags = pdiags ++ [diagMustBegin]) /\
  (remain <> [] /\ length remain < length traversal ->
   diags = pdiags ++ [diagAdditionalContent]) /\
  (remain = [] -> diags = pdiags).
Proof.
  pose proof (parsePrefixLoop_suffix traversal) as Hsuf.
  unfold parseModuleInstance, parseModuleInstancePrefix.
  destruct (loop traversal [] []) as [[mi remain] pdiags].
  destruct Hsuf as [[consumed Hc] HF].
  assert (Forall (fun x => Detail x <> Detail diagMustBegin) pdiags) as HF1
    by (eapply Forall_impl; [exact HF|]; by intros x [? ?]).
  assert (Forall (fun x => Detail x <> Detail diagAdditionalContent) pdiags) as HF2
    by (eapply Forall_impl; [exact HF|]; by intros x [? ?]).
  assert (length traversal = length consumed + length remain) as Hlen
    by (rewrite Hc, length_app; reflexivity).
  assert (remain = traversal <-> length remain = length traversal) as Heq.
  { split; [by intros ->|]. intros Hl.
    destruct consumed; [by rewrite Hc|simpl in Hlen; lia]. }
  rewrite normalizeRemain_length.
  destruct remain as [|tok remain]; simpl negb; cbv iota;
    [|destruct (Nat.eqb_spec (length (tok :: remain)) (length traversal))
        as [He|Hne]].
  all: split; [reflexivity|].
  all: split; [by exists consumed|].
  all: split; [by symmetry|].
  all: rewrite ?hasDetail_app_prefix by assumption.
  all: repeat split; try discriminate; try reflexivity; try tauto.
  all: try (intros H; by apply hasDetail_prefix_none in H).
  all: try (intros [H _]; congruence).
  all: try (intros _; by apply Heq).
  all: try (intros [_ Hl]; apply Heq in Hl; simpl in *; lia).
  all: try (intros [_ Hl]; simpl in *; lia).
  all: try (simpl in *; lia).
  all: try match goal with
       | H : hasDetail _ _ |- _ =>
           exfalso; revert H; by apply hasDetail_prefix_none
       end.
Qed.

(** C4. After the keyword [module] and a module name, an index whose number
    [FromCtyValue] cannot convert adds one error diagnostic, whose detail
    carries the text of the conversion error, and the step is appended with
    no key; the loop goes on with the tokens after the index. So the address
    of the whole prefix is this unkeyed step followed by the steps read from
    the rest, with the same remainder. *)
Theorem parsePrefix_unconvertible_index_keeps_unkeyed_step
    (kw : Traverser) (name : string) (q : Q) (err : string)
    (rest : Traversal) (mi : ModuleInstance) (diags : Diagnostics) :
  isModuleKeyword kw ->
  FromCtyValue q = inr err ->
  Severity (diagInvalidIndex err) = DiagError /\
  parsePrefixLoop FromCtyValue
    (kw :: TraverseAttr name :: TraverseIndex (ctyNumber q) :: rest) mi diags
  = parsePrefixLoop FromCtyValue rest
      (mi ++ [mkStep name NoKey]) (diags ++ [diagInvalidIndex err]) /\
  parseModuleInstancePrefix FromCtyValue
    (kw :: TraverseAttr name :: TraverseIndex (ctyNumber q) :: rest)
  = (let '(mi', remain', diags') := parsePrefixLoop FromCtyValue rest [] [] in
     (mkStep name NoKey :: mi', normalizeRemain remain',
      diagInvalidIndex err :: diags')).
Proof.
  intros Hkw Herr. split; [reflexivity|].
  assert (forall mi0 diags0,
    loop (kw :: TraverseAttr name :: TraverseIndex (ctyNumber q) :: rest) mi0 diags0
    = loop rest (mi0 ++ [mkStep name NoKey]) (diags0 ++ [diagInvalidIndex err]))
    as Hstep.
  { intros mi0 diags0. destruct Hkw as [-> | ->]; simpl; by rewrite Herr. }
  split; [apply Hstep|].
  unfold parseModuleInstancePrefix. rewrite Hstep, parsePrefixLoop_acc.
  by destruct (loop rest [] []) as [[mi' remain'] diags'].
Qed.

(** X6. The prefix parser returns a remainder that is a suffix of the input,
    with a leading attribute step turned into a root step of the same name:
    the remainder never starts with an attribute step. *)
Theorem parseModuleInstancePrefix_remainder (traversal : Traversal) :
  let '(mi, remain, diags) := parseModuleInstancePrefix FromCtyValue traversal in
  (exists consumed rest,
      traversal = consumed ++ rest /\ remain = normalizeRemain rest) /\
  (forall name rest, remain <> TraverseAttr name :: rest).
Proof.
  pose proof (parsePrefixLoop_suffix traversal) as Hsuf.
  unfold parseModuleInstancePrefix.
  destruct (loop traversal [] []) as [[mi remain] pdiags].
  destruct Hsuf as [[consumed Hc] _]. split.
  - by exists consumed, remain.
  - intros name rest. by destruct remain as [|[]].
Qed.

(** *** Runs without a diagnostic *)

Lemma isModuleKeyword_Root (name : string) :
  String.eqb name "module" = true -> isModuleKeyword (TraverseRoot name).
Proof. intros H. apply String.eqb_eq in H. subst. by left. Qed.

Lemma isModuleKeyword_Attr (name : string) :
  String.eqb name "module" = true -> isModuleKeyword (TraverseAttr name).
Proof. intros H. apply String.eqb_eq in H. subst. by right. Qed.

#[local] Hint Resolve isModuleKeyword_Root isModuleKeyword_Attr : parser.
#[local] Hint Constructors readsKey : parser.

Lemma parsePrefixLoop_parsesTo_aux (n : nat) :
  forall t mi rest, length t < n ->
    loop t [] [] = (mi, rest, []) -> parsesTo FromCtyValue t mi rest.
Proof.
  induction n as [|n IH]; intros t mi rest Hlen; [lia|].
  revert Hlen. loop_cases t; intros Hlen H; simpl in Hlen.
  all: try (rewrite parsePrefixLoop_acc in H;
            match type of H with
            | context [parsePrefixLoop _ ?r [] []] =>
                pose proof (IH r) as IHr;
                destruct (parsePrefixLoop FromCtyValue r [] []) as [[mi' r'] e]
            end; simpl in H).
  all: inversion H; subst; clear H.
  all: try (apply parsesTo_stop; simpl; try done; by apply String.eqb_neq).
  all: eapply parsesTo_step; eauto with parser.
  all: try (apply IHr; [simpl; lia|reflexivity]).
  all: try (apply readsKey_none; intros ? ? ?; discriminate).
  all: by apply parsesTo_stop.
Qed.

Lemma parsePrefixLoop_stopsPrefix (rest : Traversal) :
  stopsPrefix rest -> loop rest [] [] = ([], rest, []).
Proof.
  destruct rest as [|[name|name| |] rest]; simpl; try done;
    intros Hne; apply String.eqb_neq in Hne; by rewrite Hne.
Qed.

Lemma parsePrefixLoop_readsKey (kw : Traverser) (name : string)
    (tail : Traversal) (key : instanceKey) (tail' : Traversal) :
  isModuleKeyword kw -> readsKey FromCtyValue tail key tail' ->
  loop (kw :: TraverseAttr name :: tail) [] []
  = loop tail' [mkStep name key] [].
Proof.
  intros Hkw Hkey. destruct Hkey as [s rest|q k rest Hq|rest Hno].
  - by destruct Hkw as [-> | ->].
  - destruct Hkw as [-> | ->]; simpl; by rewrite Hq.
  - destruct Hkw as [-> | ->]; simpl;
      (destruct rest as [|[?|?|key'|] rest']; try reflexivity;
       by destruct (Hno key' rest')).
Qed.

Lemma parsesTo_parsePrefixLoop (t : Traversal) (mi : ModuleInstance)
    (rest : Traversal) :
  parsesTo FromCtyValue t mi rest -> loop t [] [] = (mi, rest, []).
Proof.
  induction 1 as [rest Hstop|kw name tail key tail' mi rest Hkw Hkey _ IH].
  - by apply parsePrefixLoop_stopsPrefix.
  - rewrite (parsePrefixLoop_readsKey kw name tail key tail' Hkw Hkey).
    rewrite parsePrefixLoop_acc, IH. reflexivity.
Qed.

(** X11. The prefix parser returns no diagnostic exactly when the input is a
    sequence of steps, each the keyword [module], a name and then either a
    string index, a number index that converts to an integer, or no index,
    followed by tokens at which no step starts (the end, or a name other
    than [module]). The address is then made of the names and keys of these
    steps, and the remainder is those tokens, the first one as a root. *)
Theorem parseModuleInstancePrefix_without_diagnostics (traversal : Traversal)
    (mi : ModuleInstance) (remain : Traversal) :
  parseModuleInstancePrefix FromCtyValue traversal = (mi, remain, []) <->
  exists rest,
    parsesTo FromCtyValue traversal mi rest /\ remain = normalizeRemain rest.
Proof.
  unfold parseModuleInstancePrefix. split.
  - destruct (loop traversal [] []) as [[mi' r] d] eqn:E. intros H.
    inversion H; subst. exists r. split; [|reflexivity].
    apply (parsePrefixLoop_parsesTo_aux (S (length traversal))); [lia|exact E].
  - intros (rest & Hp & ->). by rewrite (parsesTo_parsePrefixLoop _ _ _ Hp).
Qed.

Lemma parseModuleInstance_parsesTo (traversal : Traversal)
    (mi : ModuleInstance) :
  parseModuleInstance FromCtyValue traversal = (mi, []) <->
  parsesTo FromCtyValue traversal mi [].
Proof.
  unfold parseModuleInstance, parseModuleInstancePrefix. split.
  - destruct (loop traversal [] []) as [[mi' r] d] eqn:E.
    rewrite normalizeRemain_length.
    destruct r as [|tok r]; simpl negb; cbv iota.
    + intros H. inversion H; subst.
      apply (parsePrefixLoop_parsesTo_aux (S (length traversal))); [lia|exact E].
    + destruct (length (tok :: r) =? length traversal)%nat; intros H;
        inversion H as [[Hmi Hd]]; by destruct d.
  - intros Hp. by rewrite (parsesTo_parsePrefixLoop _ _ _ Hp).
Qed.

(** X12. [parseModuleInstance] returns no diagnostic exactly when the whole
    input is such a sequence of steps with nothing after it, and the address
    is then made of their names and keys. *)
Theorem parseModuleInstance_without_diagnostics (traversal : Traversal)
    (mi : ModuleInstance) :
  parseModuleInstance FromCtyValue traversal = (mi, []) <->
  parsesTo FromCtyValue traversal mi [].
Proof. apply parseModuleInstance_parsesTo. Qed.


(** *** Every run *)

Lemma parsePrefixLoop_facts_aux (n : nat) :
  forall t, length t < n ->
    let '(mi, r, extra) := loop t [] [] in
    Forall (fun d => Severity d = DiagError) extra /\
    2 * length mi + length r <= length t /\
    length t <= 3 * length mi + length r + 1 /\
    loopEnded r.
Proof.
  induction n as [|n IH]; intros t Hlen; [lia|].
  loop_cases t; simpl in Hlen.
  all: try (rewrite parsePrefixLoop_acc;
            match goal with
            | |- context [parsePrefixLoop _ ?r [] []] =>
                specialize (IH r ltac:(simpl; lia));
                destruct (parsePrefixLoop FromCtyValue r [] []) as [[? ?] ?]
            end;
            destruct IH as (HF & Hlo & Hhi & Hend)).
  all: simpl in *; repeat split; try lia; try assumption;
    try (by apply String.eqb_neq);
    repeat constructor; assumption.
Qed.

Lemma parsePrefixLoop_facts (t : Traversal) :
  let '(mi, r, extra) := loop t [] [] in
  Forall (fun d => Severity d = DiagError) extra /\
  2 * length mi + length r <= length t /\
  length t <= 3 * length mi + length r + 1 /\
  loopEnded r.
Proof. apply (parsePrefixLoop_facts_aux (S (length t))). lia. Qed.

Lemma HasErrors_all_errors (diags : Diagnostics) :
  Forall (fun d => Severity d = DiagError) diags ->
  (HasErrors diags = true <-> diags <> []).
Proof.
  intros HF. destruct HF as [|d diags Hd _]; simpl; [done|].
  rewrite Hd. done.
Qed.

(** X13. Every diagnostic that [parseModuleInstancePrefix] and
    [parseModuleInstance] return is an error: their diagnostics have errors
    exactly when they are not empty. *)
Theorem parse_diagnostics_are_errors (traversal : Traversal) :
  let '(mi, remain, pdiags) := parseModuleInstancePrefix FromCtyValue traversal in
  let '(mi', diags) := parseModuleInstance FromCtyValue traversal in
  Forall (fun d => Severity d = DiagError) pdiags /\
  Forall (fun d => Severity d = DiagError) diags /\
  (HasErrors pdiags = true <-> pdiags <> []) /\
  (HasErrors diags = true <-> diags <> []).
Proof.
  pose proof (parsePrefixLoop_facts traversal) as Hf.
  unfold parseModuleInstance, parseModuleInstancePrefix.
  destruct (loop traversal [] []) as [[mi r] pdiags].
  destruct Hf as (HF & _).
  assert (forall d, Severity d = DiagError ->
                    Forall (fun d => Severity d = DiagError) (pdiags ++ [d]))
    as Happ by (intros d Hd; apply Forall_app; split; [assumption|by constructor]).
  destruct (negb (length (normalizeRemain r) =? 0)%nat);
    [destruct (length (normalizeRemain r) =? length traversal)%nat|];
    repeat split; auto using HasErrors_all_errors;
    try (apply HasErrors_all_errors; auto);
    try (intros _; by apply HasErrors_all_errors; auto).
Qed.

(** X14. The tokens that the prefix parser consumes number at least two for
    each step of the address it returns, and at most three for each step and
    one more: the address has at most half as many steps as the input has
    tokens. *)
Theorem parseModuleInstancePrefix_lengths (traversal : Traversal) :
  let '(mi, remain, _) := parseModuleInstancePrefix FromCtyValue traversal in
  2 * length mi + length remain <= length traversal /\
  length traversal <= 3 * length mi + length remain + 1.
Proof.
  pose proof (parsePrefixLoop_facts traversal) as Hf.
  unfold parseModuleInstancePrefix.
  destruct (loop traversal [] []) as [[mi r] pdiags].
  rewrite normalizeRemain_length. tauto.
Qed.

(** X15. The prefix parser reads every step there is: at the remainder it
    returns no step starts. Parsing the remainder gives the root address and
    the same remainder. *)
Theorem parseModuleInstancePrefix_remainder_has_no_step (traversal : Traversal) :
  let '(_, remain, _) := parseModuleInstancePrefix FromCtyValue traversal in
  let '(mi', remain', _) := parseModuleInstancePrefix FromCtyValue remain in
  mi' = [] /\ remain' = remain.
Proof.
  pose proof (parsePrefixLoop_facts traversal) as Hf.
  unfold parseModuleInstancePrefix.
  destruct (loop traversal [] []) as [[mi r] pdiags].
  destruct Hf as (_ & _ & _ & Hend).
  destruct r as [|[name|name| |] r]; simpl in *; try done;
    apply String.eqb_neq in Hend; by rewrite Hend.
Qed.

Lemma parseModuleInstance_errors (traversal : Traversal) :
  Forall (fun d => Severity d = DiagError)
    (parseModuleInstance FromCtyValue traversal).2.
Proof.
  pose proof (parsePrefixLoop_facts traversal) as Hf.
  unfold parseModuleInstance, parseModuleInstancePrefix.
  destruct (loop traversal [] []) as [[mi r] pdiags].
  destruct Hf as (HF & _).
  destruct (negb (length (normalizeRemain r) =? 0)%nat);
    [destruct (length (normalizeRemain r) =? length traversal)%nat|];
    simpl; try assumption;
    (apply Forall_app; split; [assumption|by repeat constructor]).
Qed.

End ParserFacts.

(** ** Reading an address from a text *)

Section StrFacts.

Variable FromCtyValue : Q -> Z + string.
Variable ParseTraversalAbs : string -> Traversal * Diagnostics.

Lemma HasErrors_app (a b : Diagnostics) :
  HasErrors (a ++ b) = (HasErrors a || HasErrors b)%bool.
Proof. apply existsb_app. Qed.

(** X24. When the reader of the traversal reports an error,
    [ParseModuleInstanceStr] returns the nil address and the diagnostics of
    the reader, and the tokens are not looked at. Its diagnostics have no
    error exactly when the reader reports none and the tokens are a sequence
    of steps with nothing after it; the address is then made of these steps,
    and the diagnostics are those of the reader. *)
Theorem ParseModuleInstanceStr_errors (str : string) :
  let '(traversal, parseDiags) := ParseTraversalAbs str in
  let '(mi, diags) :=
    ParseModuleInstanceStr FromCtyValue ParseTraversalAbs str in
  (HasErrors parseDiags = true -> mi = [] /\ diags = parseDiags) /\
  (HasErrors diags = false <->
   HasErrors parseDiags = false /\
   parsesTo FromCtyValue traversal mi []) /\
  (HasErrors diags = false -> diags = parseDiags).
Proof.
  unfold ParseModuleInstanceStr.
  destruct (ParseTraversalAbs str) as [traversal parseDiags].
  change ([] ++ parseDiags) with parseDiags.
  destruct (HasErrors parseDiags) eqn:E.
  - rewrite E. repeat split; try done. by intros [? _].
  - pose proof (parseModuleInstance_errors FromCtyValue traversal) as Herr.
    pose proof (parseModuleInstance_parsesTo FromCtyValue traversal) as Hiff.
    destruct (parseModuleInstance FromCtyValue traversal) as [addr addrDiags].
    simpl in Herr. rewrite HasErrors_app, E. simpl orb.
    assert (HasErrors addrDiags = false <-> addrDiags = []) as Hnil.
    { pose proof (HasErrors_all_errors addrDiags Herr) as H.
      destruct (HasErrors addrDiags), addrDiags; split; try done.
      - intros _. exfalso. by apply H.
      - intros _. destruct H as [_ H]. by discriminate H. }
    split; [done|]. split.
    + rewrite Hnil. split.
      * intros ->. split; [reflexivity|]. by apply Hiff.
      * intros [_ Hp]. apply Hiff in Hp. by inversion Hp.
    + intros H. apply Hnil in H. subst. apply app_nil_r.
Qed.

End StrFacts.

(** ** The parser on examples *)

(** C2 (the code departs from the claim). The text [module["x"].module.b] is
    the keyword [module] followed by an index: the diagnostic is recorded, but
    the loop does not end there. The index is taken in the place of the name,
    a step with the empty name is appended, and the next step is parsed and
    appended too. *)
Theorem parsePrefix_missing_name_appends_empty_step :
  parseModuleInstancePrefix syntax.FromCtyValue
    [TraverseRoot "module"; TraverseIndex (ctyString "x");
     TraverseAttr "module"; TraverseAttr "b"]
  = ([mkStep EmptyString NoKey; mkStep "b" NoKey], [], [diagNeedsModuleName]).
Proof. reflexivity. Qed.

(** The same holds for every token that is not an attribute: the loop goes on
    after the diagnostic with a step of the empty name. *)
Lemma parsePrefixLoop_missing_name_continues
    (FromCtyValue : Q -> Z + string) (kw tok : Traverser) (rest : Traversal)
    (mi : ModuleInstance) (diags : Diagnostics) :
  isModuleKeyword kw ->
  (forall name, tok <> TraverseAttr name) ->
  (forall key rest', rest <> TraverseIndex key :: rest') ->
  parsePrefixLoop FromCtyValue (kw :: tok :: rest) mi diags
  = parsePrefixLoop FromCtyValue rest
      (mi ++ [mkStep EmptyString NoKey]) (diags ++ [diagNeedsModuleName]).
Proof.
  intros Hkw Htok Hrest.
  destruct Hkw as [-> | ->]; simpl;
    (destruct tok as [?|name'| |]; [|by destruct (Htok name')|..]);
    destruct rest as [|[?|?|key'|] rest']; try reflexivity;
    by destruct (Hrest key' rest').
Qed.

(** When the input ends after the keyword, the loop does end. *)
Lemma parsePrefixLoop_keyword_at_end
    (FromCtyValue : Q -> Z + string) (kw : Traverser)
    (mi : ModuleInstance) (diags : Diagnostics) :
  isModuleKeyword kw ->
  parsePrefixLoop FromCtyValue [kw] mi diags
  = (mi, [], diags ++ [diagNeedsModuleName]).
Proof. by intros [-> | ->]. Qed.

(** The witness of C4: the number one half is no integer. *)
Lemma parsePrefix_unconvertible_index_witness :
  parseModuleInstancePrefix syntax.FromCtyValue
    [TraverseRoot "module"; TraverseAttr "foo"; TraverseIndex (ctyNumber (1 # 2));
     TraverseAttr "module"; TraverseAttr "bar"]
  = ([mkStep "foo" NoKey; mkStep "bar" NoKey], [],
     [diagInvalidIndex
        "value must be a whole number, between -9223372036854775808 and 9223372036854775807 inclusive"]).
Proof.
  destruct (parsePrefix_unconvertible_index_keeps_unkeyed_step
              syntax.FromCtyValue (TraverseRoot "module") "foo" (1 # 2)
              "value must be a whole number, between -9223372036854775808 and 9223372036854775807 inclusive"
              [TraverseAttr "module"; TraverseAttr "bar"] [] []
              (or_introl eq_refl) eq_refl) as (_ & _ & H).
  rewrite H. reflexivity.
Defined.

(** The tokens of [module.foo.module.bar[2]] give the two steps [foo]
    and [bar] with the key 2 and no remainder; the tokens of
    [module.foo["x"].bar] give the step [foo] with the key [x] and the
    remainder [bar], as a root step. Neither records a diagnostic. *)
Theorem parseModuleInstancePrefix_examples :
  parseModuleInstancePrefix syntax.FromCtyValue
    [TraverseRoot "module"; TraverseAttr "foo"; TraverseAttr "module";
     TraverseAttr "bar"; TraverseIndex (ctyNumber (inject_Z 2))]
  = ([mkStep "foo" NoKey; mkStep "bar" (intKey 2)], [], []) /\
  parseModuleInstancePrefix syntax.FromCtyValue
    [TraverseRoot "module"; TraverseAttr "foo"; TraverseIndex (ctyString "x");
     TraverseAttr "bar"]
  = ([mkStep "foo" (stringKey "x")], [TraverseRoot "bar"], []).
Proof. split; reflexivity. Qed.

(** ** Strings *)

Lemma append_assoc (a b c : string) : (a +:+ b) +:+ c = a +:+ (b +:+ c).
Proof. induction a as [|x a IH]; simpl; [reflexivity|by f_equal]. Qed.

Lemma append_empty_r (a : string) : a +:+ EmptyString = a.
Proof. induction a as [|x a IH]; simpl; [reflexivity|by f_equal]. Qed.

(** ** Rendering an address and reading it back *)

Import syntax.

(** *** The text of an address *)

Lemma StringLoop_tailText (steps : ModuleInstance) :
  forall buf, StringLoop steps "." buf = buf +:+ tailText steps.
Proof.
  induction steps as [|step steps IH]; intros buf; simpl.
  - by rewrite append_empty_r.
  - rewrite IH. unfold stepText.
    destruct (decide (InstanceKey step <> NoKey));
      rewrite ?append_assoc; simpl; rewrite ?append_assoc; reflexivity.
Qed.

Lemma ModuleInstance_String_text (step : ModuleInstanceStep)
    (steps : ModuleInstance) :
  ModuleInstance_String (step :: steps)
  = "module" +:+ stepText step +:+ tailText steps.
Proof.
  unfold ModuleInstance_String. simpl. rewrite StringLoop_tailText.
  unfold stepText.
  destruct (decide (InstanceKey step <> NoKey));
    rewrite ?append_assoc; simpl; rewrite ?append_assoc; reflexivity.
Qed.

(** X8. The text of the root address is the empty string, and the text of an
    address is its steps joined by dots, each the keyword, a dot, the name
    and the key if there is one. *)
Theorem ModuleInstance_String_steps :
  ModuleInstance_String RootModuleInstance = EmptyString /\
  (forall step steps,
      ModuleInstance_String (step :: steps)
      = "module." +:+ Name step +:+
        (if decide (InstanceKey step <> NoKey)
         then instanceKey_String (InstanceKey step) else EmptyString) +:+
        match steps with
        | [] => EmptyString
        | _ :: _ => "." +:+ ModuleInstance_String steps
        end) /\
  ModuleInstance_String [mkStep "foo" NoKey; mkStep "bar" (intKey 2)]
  = "module.foo.module.bar[2]".
Proof.
  split; [reflexivity|]. split; [|reflexivity].
  intros step steps. rewrite ModuleInstance_String_text. unfold stepText.
  destruct steps as [|step' steps].
  - simpl tailText. rewrite !append_assoc. reflexivity.
  - rewrite ModuleInstance_String_text. cbn [tailText].
    rewrite !append_assoc. reflexivity.
Qed.

Lemma tailText_app (a b : ModuleInstance) :
  tailText (a ++ b) = tailText a +:+ tailText b.
Proof.
  induction a as [|step a IH]; simpl; [reflexivity|].
  rewrite IH, !append_assoc. reflexivity.
Qed.

(** X16. The text of a child is the text of its parent, a dot unless the
    parent is the root, and the text of the new step: the keyword, a dot,
    the name and the key if there is one. *)
Theorem ModuleInstance_String_Child (m : ModuleInstance) (name : string)
    (key : instanceKey) :
  ModuleInstance_String (Child m name key)
  = ModuleInstance_String m +:+
    match m with [] => EmptyString | _ :: _ => "." end +:+
    "module." +:+ name +:+
    (if decide (key <> NoKey) then instanceKey_String key else EmptyString).
Proof.
  unfold Child. destruct m as [|step m].
  - change ([] ++ [mkStep name key]) with [mkStep name key].
    rewrite ModuleInstance_String_text. unfold stepText. simpl.
    by rewrite append_empty_r.
  - change ((step :: m) ++ [mkStep name key])
      with (step :: (m ++ [mkStep name key])).
    rewrite !ModuleInstance_String_text, tailText_app.
    unfold stepText at 2. simpl. rewrite !append_assoc, append_empty_r.
    reflexivity.
Qed.

(** *** Scanning names, numbers and quoted strings *)

Lemma spanWhile_app (p : ascii -> bool) (a rest : string) :
  allChars p a = true -> stops p rest ->
  spanWhile p (a +:+ rest) = (a, rest).
Proof.
  intros Ha Hrest. induction a as [|c a IH]; simpl in *.
  - destruct rest as [|c r]; simpl in *; [reflexivity|by rewrite Hrest].
  - unfold allChars in Ha. simpl in Ha. apply andb_true_iff in Ha as [Hc Ha].
    rewrite Hc, IH by exact Ha. reflexivity.
Qed.

Lemma scanName_app (name rest : string) :
  isName name = true -> stops isIdentChar rest ->
  scanName (name +:+ rest) = Some (name, rest).
Proof.
  intros Hname Hrest. destruct name as [|c name]; [discriminate|].
  simpl in Hname. apply andb_true_iff in Hname as [Hc Hall].
  change (scanName (String c name +:+ rest))
    with (if isIdentStart c
          then Some (spanWhile isIdentChar (String c name +:+ rest)) else None).
  rewrite Hc, spanWhile_app by assumption. reflexivity.
Qed.

Lemma string_of_uint_digits (d : Decimal.uint) :
  allChars isDigit (NilEmpty.string_of_uint d) = true.
Proof. induction d; simpl; auto. Qed.

Lemma decimal_digits (n : Z) :
  (0 <= n)%Z ->
  exists c digits,
    NilZero.string_of_int (Z.to_int n) = String c digits /\
    isDigit c = true /\ allChars isDigit digits = true /\
    numberValue (String c digits) = Some (inject_Z n).
Proof.
  intros Hn. destruct n as [|p|p]; [| |lia].
  - exists "0"%char, EmptyString. repeat split.
  - simpl. pose proof (DecimalPos.Unsigned.of_to p) as Hof.
    set (d := Pos.to_uint p) in *.
    assert (d <> Decimal.Nil) as Hnil.
    { intros Heq. rewrite Heq in Hof. discriminate. }
    pose proof (NilZero.usu d Hnil) as Husu.
    assert (NilZero.string_of_uint d = NilEmpty.string_of_uint d) as Hsame
      by (by destruct d).
    pose proof (string_of_uint_digits d) as Hd. rewrite <- Hsame in Hd.
    destruct (NilZero.string_of_uint d) as [|c digits] eqn:Hs; [discriminate|].
    exists c, digits. split; [reflexivity|].
    unfold allChars in Hd. simpl in Hd. apply andb_true_iff in Hd as [Hc Hd].
    repeat split; try assumption.
    unfold numberValue. rewrite Husu. simpl.
    unfold N.of_uint. rewrite Hof. reflexivity.
Qed.

Lemma digit_not_quote (c : ascii) : isDigit c = true -> Ascii.eqb c "034" = false.
Proof. destruct c as [[] [] [] [] [] [] [] []]; intros H; try discriminate H; reflexivity. Qed.

Lemma scanQuoted_escapeString (s rest : string) :
  scanQuoted (escapeString s +:+ dq +:+ rest) = Some (s, rest).
Proof.
  induction s as [|c s IH]; [reflexivity|].
  simpl escapeString.
  destruct (Ascii.eqb c "034") eqn:Hq; [|destruct (Ascii.eqb c "\") eqn:Hb].
  - apply Ascii.eqb_eq in Hq. subst c. simpl. simpl in IH. rewrite IH. reflexivity.
  - apply Ascii.eqb_eq in Hb. subst c. simpl. simpl in IH. rewrite IH. reflexivity.
  - simpl. rewrite Hq, Hb. simpl in IH. rewrite IH. reflexivity.
Qed.

Lemma scanKey_string (s rest : string) :
  scanKey (quoteString s +:+ rest) = Some (ctyString s, rest).
Proof.
  unfold quoteString. rewrite !append_assoc.
  change (scanKey (dq +:+ escapeString s +:+ dq +:+ rest))
    with ('(str, s2) ← scanQuoted (escapeString s +:+ dq +:+ rest);
          Some (ctyString str, s2)).
  rewrite scanQuoted_escapeString. reflexivity.
Qed.

Lemma scanKey_int (n : Z) (rest : string) :
  (0 <= n)%Z -> stops isDigit rest ->
  scanKey (NilZero.string_of_int (Z.to_int n) +:+ rest)
  = Some (ctyNumber (inject_Z n), rest).
Proof.
  intros Hn Hrest.
  destruct (decimal_digits n Hn) as (c & digits & -> & Hc & Hd & Hval).
  change (scanKey (String c digits +:+ rest))
    with (if Ascii.eqb c "034"
          then '(str, s2) ← scanQuoted (digits +:+ rest); Some (ctyString str, s2)
          else let '(ds, s2) := spanWhile isDigit (String c digits +:+ rest) in
               q ← numberValue ds; Some (ctyNumber q, s2)).
  rewrite (digit_not_quote c Hc).
  rewrite (spanWhile_app isDigit (String c digits) rest); [|by unfold allChars; simpl; rewrite Hc|assumption].
  rewrite Hval. reflexivity.
Qed.

(** *** Scanning the steps of an address *)

Lemma scanSteps_attr (fuel : nat) (name rest : string) :
  isName name = true -> stops isIdentChar rest ->
  scanSteps (S fuel) ("." +:+ name +:+ rest)
  = (steps ← scanSteps fuel rest; Some (TraverseAttr name :: steps)).
Proof.
  intros Hname Hrest.
  change (scanSteps (S fuel) ("." +:+ name +:+ rest))
    with ('(nm, s2) ← scanName (name +:+ rest);
          steps ← scanSteps fuel s2; Some (TraverseAttr nm :: steps)).
  rewrite scanName_app by assumption. reflexivity.
Qed.

Lemma scanSteps_key (fuel : nat) (k : instanceKey) (rest : string) :
  k <> NoKey -> plainKey k = true ->
  scanSteps (S fuel) (instanceKey_String k +:+ rest)
  = (steps ← scanSteps fuel rest; Some (keyTokens k ++ steps)).
Proof.
  intros Hk Hplain. destruct k as [|n|s]; [done|..]; unfold instanceKey_String.
  - simpl in Hplain. apply andb_true_iff in Hplain as [Hn _].
    apply Z.leb_le in Hn.
    rewrite !append_assoc.
    change (scanSteps (S fuel)
              ("[" +:+ NilZero.string_of_int (Z.to_int n) +:+ "]" +:+ rest))
      with ('(key, s2) ← scanKey (NilZero.string_of_int (Z.to_int n) +:+ "]" +:+ rest);
            match s2 with
            | EmptyString => None
            | String c' s3 =>
                if Ascii.eqb c' "]"
                then steps ← scanSteps fuel s3; Some (TraverseIndex key :: steps)
                else None
            end).
    rewrite scanKey_int; [reflexivity|assumption|reflexivity].
  - rewrite !append_assoc.
    change (scanSteps (S fuel) ("[" +:+ quoteString s +:+ "]" +:+ rest))
      with ('(key, s2) ← scanKey (quoteString s +:+ "]" +:+ rest);
            match s2 with
            | EmptyString => None
            | String c' s3 =>
                if Ascii.eqb c' "]"
                then steps ← scanSteps fuel s3; Some (TraverseIndex key :: steps)
                else None
            end).
    rewrite scanKey_string. reflexivity.
Qed.

Lemma wellFormedStep_inv (step : ModuleInstanceStep) :
  wellFormedStep step = true ->
  isName (Name step) = true /\ plainKey (InstanceKey step) = true.
Proof. unfold wellFormedStep. by rewrite andb_true_iff. Qed.

Lemma stops_tailText (steps : ModuleInstance) :
  stops isIdentChar (tailText steps) /\ stops isDigit (tailText steps).
Proof. by destruct steps. Qed.

Lemma stops_key_tailText (k : instanceKey) (steps : ModuleInstance) :
  stops isIdentChar
    ((if decide (k <> NoKey) then instanceKey_String k else EmptyString)
     +:+ tailText steps).
Proof.
  destruct (decide (k <> NoKey)) as [Hk|Hk]; [|apply stops_tailText].
  by destruct k.
Qed.

(** The text after the first keyword scans to the tokens of the first step
    followed by the tokens of the other steps. *)
Lemma scanSteps_address (steps : ModuleInstance) :
  Forall (fun step => wellFormedStep step = true) steps ->
  forall fuel,
    length (addressTokens steps) < fuel ->
    scanSteps fuel (tailText steps) = Some (addressTokens steps).
Proof.
  induction steps as [|step steps IH]; intros Hwf fuel Hfuel.
  - destruct fuel; [simpl in Hfuel; lia|reflexivity].
  - apply Forall_cons in Hwf as [Hstep Hwf].
    apply wellFormedStep_inv in Hstep as [Hname Hkey].
    specialize (IH Hwf).
    simpl tailText. unfold stepText.
    change (addressTokens (step :: steps))
      with (TraverseAttr "module" :: TraverseAttr (Name step) ::
            keyTokens (InstanceKey step) ++ addressTokens steps) in *.
    simpl in Hfuel. rewrite length_app in Hfuel.
    destruct fuel as [|[|fuel]]; [lia..|].
    set (keyText := if decide (InstanceKey step <> NoKey)
                    then instanceKey_String (InstanceKey step) else EmptyString).
    pose proof (stops_key_tailText (InstanceKey step) steps) as Hstops.
    fold keyText in Hstops.
    rewrite !append_assoc.
    etransitivity;
      [exact (scanSteps_attr (S fuel) "module"
                ("." +:+ Name step +:+ keyText +:+ tailText steps)
                eq_refl eq_refl)|].
    rewrite (scanSteps_attr fuel (Name step) (keyText +:+ tailText steps));
      [|assumption|assumption].
    subst keyText.
    destruct (decide (InstanceKey step <> NoKey)) as [Hk|Hk].
    + assert (length (keyTokens (InstanceKey step)) = 1) as Hlen
        by (by destruct (InstanceKey step)).
      destruct fuel as [|fuel]; [lia|].
      rewrite scanSteps_key by assumption.
      rewrite IH by lia. reflexivity.
    + assert (InstanceKey step = NoKey) as ->
        by (destruct (InstanceKey step); [reflexivity|by destruct Hk..]).
      simpl in *. rewrite IH by lia. reflexivity.
Qed.

Lemma length_append (a b : string) :
  String.length (a +:+ b) = String.length a + String.length b.
Proof. induction a as [|c a IH]; simpl; [reflexivity|by rewrite IH]. Qed.

Lemma keyTokens_length (k : instanceKey) : length (keyTokens k) <= 1.
Proof. destruct k; simpl; lia. Qed.

Lemma isName_length (name : string) :
  isName name = true -> 1 <= String.length name.
Proof. destruct name; [discriminate|simpl; lia]. Qed.

Lemma addressTokens_length (steps : ModuleInstance) :
  length (addressTokens steps) <= String.length (tailText steps).
Proof.
  induction steps as [|step steps IH]; [reflexivity|].
  change (addressTokens (step :: steps))
    with (TraverseAttr "module" :: TraverseAttr (Name step) ::
          keyTokens (InstanceKey step) ++ addressTokens steps).
  cbn [tailText]. unfold stepText.
  rewrite !length_append. simpl length. rewrite length_app.
  pose proof (keyTokens_length (InstanceKey step)). simpl String.length. lia.
Qed.

Lemma scanSteps_first (step : ModuleInstanceStep) (steps : ModuleInstance) :
  wellFormedStep step = true ->
  Forall (fun step => wellFormedStep step = true) steps ->
  scanSteps (S (String.length (stepText step +:+ tailText steps)))
    (stepText step +:+ tailText steps)
  = Some (TraverseAttr (Name step) ::
          keyTokens (InstanceKey step) ++ addressTokens steps).
Proof.
  intros Hstep Hwf. apply wellFormedStep_inv in Hstep as [Hname Hkey].
  pose proof (addressTokens_length steps) as Hlen.
  pose proof (isName_length _ Hname) as Hnlen.
  unfold stepText.
  set (keyText := if decide (InstanceKey step <> NoKey)
                  then instanceKey_String (InstanceKey step) else EmptyString).
  pose proof (stops_key_tailText (InstanceKey step) steps) as Hstops.
  fold keyText in Hstops.
  rewrite !append_assoc.
  remember (String.length ("." +:+ Name step +:+ keyText +:+ tailText steps))
    as fuel eqn:Hfuel.
  rewrite !length_append in Hfuel. simpl in Hfuel.
  rewrite scanSteps_attr by assumption.
  subst keyText.
  destruct (decide (InstanceKey step <> NoKey)) as [Hk|Hk].
  - destruct fuel as [|fuel']; [lia|].
    rewrite scanSteps_key by assumption.
    rewrite scanSteps_address; [reflexivity|assumption|lia].
  - assert (InstanceKey step = NoKey) as ->
      by (destruct (InstanceKey step); [reflexivity|by destruct Hk..]).
    change (EmptyString +:+ tailText steps) with (tailText steps).
    rewrite scanSteps_address; [reflexivity|assumption|lia].
Qed.

(** The reader gives the tokens of a well-formed address back. *)
Lemma ParseTraversalAbs_String (step : ModuleInstanceStep)
    (steps : ModuleInstance) :
  wellFormedStep step = true ->
  Forall (fun step => wellFormedStep step = true) steps ->
  ParseTraversalAbs (ModuleInstance_String (step :: steps))
  = (TraverseRoot "module" :: TraverseAttr (Name step) ::
       keyTokens (InstanceKey step) ++ addressTokens steps, []).
Proof.
  intros Hstep Hwf. rewrite ModuleInstance_String_text. unfold ParseTraversalAbs.
  rewrite scanName_app; [|reflexivity|by unfold stepText].
  by rewrite scanSteps_first.
Qed.

(** *** Parsing the tokens of an address *)

Section TokensFacts.

Variable FromCtyValue : Q -> Z + string.

(** The conversion gives the integers of the range of [int] back. *)
Hypothesis FromCtyValue_int :
  forall n, (0 <= n <= maxInt)%Z -> FromCtyValue (inject_Z n) = inl n.

Lemma parsePrefixLoop_step (kw : Traverser) (step : ModuleInstanceStep)
    (steps : ModuleInstance) (mi : ModuleInstance) (diags : Diagnostics) :
  isModuleKeyword kw ->
  plainKey (InstanceKey step) = true ->
  parsePrefixLoop FromCtyValue
    (kw :: TraverseAttr (Name step) ::
       keyTokens (InstanceKey step) ++ addressTokens steps) mi diags
  = parsePrefixLoop FromCtyValue (addressTokens steps) (mi ++ [step]) diags.
Proof.
  intros Hkw Hkey. destruct step as [name [|n|s]]; simpl in *.
  - destruct Hkw as [-> | ->]; simpl; by destruct steps.
  - apply andb_true_iff in Hkey as [H0 Hmax].
    apply Z.leb_le in H0, Hmax.
    destruct Hkw as [-> | ->]; simpl; by rewrite FromCtyValue_int.
  - by destruct Hkw as [-> | ->].
Qed.

Lemma parsePrefixLoop_addressTokens (steps : ModuleInstance) :
  Forall (fun step => wellFormedStep step = true) steps ->
  forall mi diags,
    parsePrefixLoop FromCtyValue (addressTokens steps) mi diags
    = (mi ++ steps, [], diags).
Proof.
  induction steps as [|step steps IH]; intros Hwf mi diags.
  - simpl. by rewrite app_nil_r.
  - apply Forall_cons in Hwf as [Hstep Hwf].
    apply wellFormedStep_inv in Hstep as [_ Hkey].
    change (addressTokens (step :: steps))
      with (TraverseAttr "module" :: TraverseAttr (Name step) ::
            keyTokens (InstanceKey step) ++ addressTokens steps).
    rewrite parsePrefixLoop_step; [|by right|assumption].
    rewrite IH by assumption. by rewrite <- app_assoc.
Qed.

Lemma parseModuleInstance_tokens (step : ModuleInstanceStep)
    (steps : ModuleInstance) :
  wellFormedStep step = true ->
  Forall (fun step => wellFormedStep step = true) steps ->
  parseModuleInstance FromCtyValue
    (TraverseRoot "module" :: TraverseAttr (Name step) ::
       keyTokens (InstanceKey step) ++ addressTokens steps)
  = (step :: steps, []).
Proof.
  intros Hstep Hwf. apply wellFormedStep_inv in Hstep as [_ Hkey].
  unfold parseModuleInstance, parseModuleInstancePrefix.
  rewrite parsePrefixLoop_step; [|by left|assumption].
  rewrite parsePrefixLoop_addressTokens by assumption. reflexivity.
Qed.

(** C3, amended. For every address [m] that is not the root, whose names
    are names of the syntax (a letter or an underscore, then letters, digits,
    underscores and dashes) and whose keys are no key, an integer from zero
    to the largest [int] or a string of plain characters, reading the text
    [String] gives for [m] returns [m] and no diagnostic, with every
    conversion that gives the integers of that range back. *)
Theorem String_then_parse_roundtrip (m : ModuleInstance) :
  m <> [] ->
  Forall (fun step => wellFormedStep step = true) m ->
  addrs.ParseModuleInstanceStr FromCtyValue ParseTraversalAbs
    (ModuleInstance_String m)
  = (m, []).
Proof.
  intros Hne Hwf. destruct m as [|step steps]; [done|].
  apply Forall_cons in Hwf as [Hstep Hwf].
  unfold addrs.ParseModuleInstanceStr.
  rewrite ParseTraversalAbs_String by assumption. simpl HasErrors. cbv iota.
  rewrite parseModuleInstance_tokens by assumption. reflexivity.
Qed.

End TokensFacts.

Lemma Qred_inject_Z (n : Z) : Qred (inject_Z n) = inject_Z n.
Proof.
  unfold Qred, inject_Z.
  pose proof (Z.ggcd_gcd n 1) as Hg.
  pose proof (Z.ggcd_correct_divisors n 1) as Hd.
  destruct (Z.ggcd n 1) as [g [aa bb]]. simpl in *.
  rewrite Z.gcd_1_r in Hg. subst g. destruct Hd as [Ha Hb].
  rewrite Z.mul_1_l in Ha, Hb. subst aa bb. reflexivity.
Qed.

Lemma FromCtyValue_inject_Z (n : Z) :
  (0 <= n <= maxInt)%Z -> FromCtyValue (inject_Z n) = inl n.
Proof.
  intros [H0 Hmax]. unfold FromCtyValue. rewrite Qred_inject_Z. simpl.
  assert ((minInt <=? n)%Z = true) as ->
    by (apply Z.leb_le; unfold minInt; lia).
  assert ((n <=? maxInt)%Z = true) as -> by (by apply Z.leb_le).
  reflexivity.
Qed.

(** X17. Two addresses whose names are names of the syntax and whose keys
    the text syntax can carry have the same text only when they are the same
    address. *)
Theorem ModuleInstance_String_injective (m1 m2 : ModuleInstance) :
  Forall (fun step => wellFormedStep step = true) m1 ->
  Forall (fun step => wellFormedStep step = true) m2 ->
  ModuleInstance_String m1 = ModuleInstance_String m2 ->
  m1 = m2.
Proof.
  intros Hwf1 Hwf2 Heq.
  destruct m1 as [|s1 m1], m2 as [|s2 m2]; [reflexivity|..].
  - rewrite ModuleInstance_String_text in Heq. discriminate.
  - rewrite ModuleInstance_String_text in Heq. discriminate.
  - apply Forall_cons in Hwf1 as [Hs1 Hwf1].
    apply Forall_cons in Hwf2 as [Hs2 Hwf2].
    pose proof (ParseTraversalAbs_String s1 m1 Hs1 Hwf1) as H1.
    pose proof (ParseTraversalAbs_String s2 m2 Hs2 Hwf2) as H2.
    rewrite Heq, H2 in H1. apply (f_equal fst) in H1. simpl in H1.
    pose proof (parseModuleInstance_tokens FromCtyValue FromCtyValue_inject_Z
                  s1 m1 Hs1 Hwf1) as P1.
    pose proof (parseModuleInstance_tokens FromCtyValue FromCtyValue_inject_Z
                  s2 m2 Hs2 Hwf2) as P2.
    rewrite <- H1, P2 in P1. by inversion P1.
Qed.

(** The witness of X17: the address [net], [db] with the key 7. *)
Lemma ModuleInstance_String_injective_witness :
  [mkStep "net" NoKey; mkStep "db" (intKey 7)]
  = [mkStep "net" NoKey; mkStep "db" (intKey 7)].
Proof.
  apply (ModuleInstance_String_injective
           [mkStep "net" NoKey; mkStep "db" (intKey 7)]
           [mkStep "net" NoKey; mkStep "db" (intKey 7)]).
  - repeat constructor.
  - repeat constructor.
  - reflexivity.
Defined.

(** C3, as stated: names that are not empty are not enough. The name
    [a.module.b] is not empty, and the text of the one-step address with this
    name reads back as the two steps [a] and [b], without a diagnostic. *)
Lemma String_then_parse_dotted_name :
  Forall (fun step => Name step <> EmptyString) [mkStep "a.module.b" NoKey] /\
  ModuleInstance_String [mkStep "a.module.b" NoKey] = "module.a.module.b" /\
  syntax.ParseModuleInstanceStr (ModuleInstance_String [mkStep "a.module.b" NoKey])
  = ([mkStep "a" NoKey; mkStep "b" NoKey], []) /\
  syntax.ParseModuleInstanceStr (ModuleInstance_String [mkStep "a.module.b" NoKey])
  <> ([mkStep "a.module.b" NoKey], []).
Proof.
  split; [|split; [reflexivity|split; [reflexivity|]]].
  - by repeat constructor.
  - discriminate.
Qed.

(** The text of the root address is empty and does not read back without a
    diagnostic. *)
Lemma String_then_parse_root :
  syntax.ParseModuleInstanceStr (ModuleInstance_String RootModuleInstance)
  = ([], [diagNeedsRoot]).
Proof. reflexivity. Qed.

(** The text of a negative key has a sign, which is no bare integer. *)
Lemma String_then_parse_negative_key :
  ModuleInstance_String [mkStep "a" (intKey (-1))] = "module.a[-1]" /\
  syntax.ParseModuleInstanceStr (ModuleInstance_String [mkStep "a" (intKey (-1))])
  = ([], [diagBadStep]).
Proof. split; reflexivity. Qed.

(** The witness of C3: a three-step address with the three kinds of key. *)
Lemma String_then_parse_roundtrip_witness :
  ModuleInstance_String
    [mkStep "net" NoKey; mkStep "sub-net_2" (intKey 7); mkStep "db" (stringKey "eu west")]
  = "module.net.module.sub-net_2[7].module.db[" +:+ dq +:+ "eu west" +:+ dq +:+ "]" /\
  syntax.ParseModuleInstanceStr
    (ModuleInstance_String
       [mkStep "net" NoKey; mkStep "sub-net_2" (intKey 7);
        mkStep "db" (stringKey "eu west")])
  = ([mkStep "net" NoKey; mkStep "sub-net_2" (intKey 7);
      mkStep "db" (stringKey "eu west")], []).
Proof.
  split; [reflexivity|].
  apply (String_then_parse_roundtrip FromCtyValue FromCtyValue_inject_Z).
  - discriminate.
  - repeat constructor.
Defined.

(** ** The module node: dependency names *)

Import terraform examples.

Lemma fold_left_snoc_map {A B : Type} (f : A -> B) (l : list A) (init : list B) :
  fold_left (fun acc x => acc ++ [f x]) l init = init ++ map f l.
Proof.
  revert init. induction l as [|x l IH]; intros init; simpl.
  - by rewrite app_nil_r.
  - rewrite IH, <- app_assoc. reflexivity.
Qed.

(** C6, as stated: the qualified names would be the call name, a dot and the
    output name. They are not: the qualified name of the output [ip] of the
    call [net] is [module.net.ip], not [net.ip]. *)
Lemma DependableName_not_callname_dot_output :
  DependableName netNode = ["module.net"; "module.net.ip"] /\
  DependableName netNode <>
    GraphNodeConfigModule_Name netNode ::
      map (fun o => Module_Name (n_Module netNode) +:+ "." +:+ Output_Name o)
          (Outputs (Config (n_Tree netNode))).
Proof. split; [reflexivity|discriminate]. Qed.

(** C6, amended. [DependableName] returns the name of the node, which is
    [module.] followed by the call name, and then for each declared output,
    in their order, the name of the node, a dot and the name of the output:
    [module.<callname>.<outputname>]. *)
Theorem DependableName_node_name_dot_output (n : GraphNodeConfigModule) :
  GraphNodeConfigModule_Name n = "module." +:+ Module_Name (n_Module n) /\
  DependableName n =
    GraphNodeConfigModule_Name n ::
      map (fun o => "module." +:+ Module_Name (n_Module n) +:+ "." +:+ Output_Name o)
          (Outputs (Config (n_Tree n))).
Proof.
  split; [reflexivity|]. unfold DependableName.
  rewrite fold_left_snoc_map. simpl. f_equal.
Qed.

Lemma append_inj_l (a b c : string) : a +:+ b = a +:+ c -> b = c.
Proof.
  induction a as [|x a IH]; simpl; [done|]. intros H. apply IH. by inversion H.
Qed.

(** X19. The names [DependableName] returns are pairwise different exactly
    when the names of the declared outputs are: the name of the node is
    different from every qualified name, and two outputs have the same
    qualified name only when they have the same name. *)
Theorem DependableName_NoDup (n : GraphNodeConfigModule) :
  NoDup (DependableName n) <->
  NoDup (map Output_Name (Outputs (Config (n_Tree n)))).
Proof.
  unfold DependableName. rewrite fold_left_snoc_map.
  set (N := GraphNodeConfigModule_Name n).
  set (outs := Outputs (Config (n_Tree n))).
  change ([N] ++ map (fun o => N +:+ "." +:+ Output_Name o) outs)
    with (N :: map (fun o => N +:+ "." +:+ Output_Name o) outs).
  assert (map (fun o => N +:+ "." +:+ Output_Name o) outs
          = (fun x => N +:+ "." +:+ x) <$> (Output_Name <$> outs)) as ->
    by (by rewrite <- list_fmap_compose).
  assert (Inj (=) (=) (fun x => N +:+ "." +:+ x)) as Hinj.
  { intros x y H. apply append_inj_l in H. by inversion H. }
  rewrite NoDup_cons, (NoDup_fmap _). split; [tauto|]. intros Hnd.
  split; [|exact Hnd]. intros Hin.
  apply list_elem_of_fmap in Hin as (x & Hx & _).
  rewrite <- (append_empty_r N) in Hx at 1.
  apply append_inj_l in Hx. discriminate.
Qed.

(** ** The module node: what it depends on *)

Section DependenciesFacts.

Context {InterpolatedVariable : Type}.
Variable varNameForVar : InterpolatedVariable -> string.

Lemma DependentOn_acc (vars : list (string * InterpolatedVariable)) :
  forall result,
    fold_left
      (fun result kv =>
         let vn := varNameForVar kv.2 in
         if decide (vn <> EmptyString) then result ++ [vn] else result)
      vars result
    = result ++ filter (fun vn => vn <> EmptyString)
                  ((fun kv => varNameForVar kv.2) <$> vars).
Proof.
  induction vars as [|kv vars IH]; intros result.
  - simpl. by rewrite app_nil_r.
  - rewrite fmap_cons, filter_cons. cbn [fold_left]. rewrite IH.
    cbv zeta.
    destruct (decide (varNameForVar kv.2 <> EmptyString));
      [by rewrite <- app_assoc|reflexivity].
Qed.

Lemma DependentOn_filter (vars : list (string * InterpolatedVariable)) :
  DependentOn varNameForVar vars
  = filter (fun vn => vn <> EmptyString)
      ((fun kv => varNameForVar kv.2) <$> vars).
Proof. unfold DependentOn. by rewrite DependentOn_acc. Qed.

(** X20. [DependentOn] never returns the empty name. It returns the names
    that are not empty of the variables of the map, no more of them than the
    map has variables; and the order in which the map is visited changes the
    order of the names only. *)
Theorem DependentOn_names (vars : list (string * InterpolatedVariable)) :
  (EmptyString ∉ DependentOn varNameForVar vars) /\
  (forall vn,
      vn ∈ DependentOn varNameForVar vars <->
      vn <> EmptyString /\
      exists k v, (k, v) ∈ vars /\ varNameForVar v = vn) /\
  length (DependentOn varNameForVar vars) <= length vars /\
  (forall vars',
      vars ≡ₚ vars' ->
      DependentOn varNameForVar vars ≡ₚ DependentOn varNameForVar vars').
Proof.
  rewrite DependentOn_filter. repeat split.
  - intros H. apply list_elem_of_filter in H as [H _]. by apply H.
  - by apply list_elem_of_filter in H as [H _].
  - apply list_elem_of_filter in H as [_ H].
    apply list_elem_of_fmap in H as ([k v] & -> & H). by exists k, v.
  - intros (Hne & k & v & Hin & <-). apply list_elem_of_filter. split; [done|].
    apply list_elem_of_fmap. by exists (k, v).
  - etransitivity; [apply length_filter|]. by rewrite length_fmap.
  - intros vars' Hp. rewrite DependentOn_filter. by rewrite Hp.
Qed.

End DependenciesFacts.

(** ** The module node: its providers *)

Section ProvidersFacts.

Variable resourceProvider : string -> string -> string.
Variable rangeKeys : gset string -> list string.

Lemma fold_left_union_elem {A : Type} (f : A -> string) (l : list A) :
  forall (init : gset string) (x : string),
    x ∈ fold_left (fun acc a => {[ f a ]} ∪ acc) l init <->
    x ∈ init \/ exists a, a ∈ l /\ f a = x.
Proof.
  induction l as [|a l IH]; intros init x; simpl.
  - split; [by left|]. intros [H|(a & Ha & _)]; [done|by apply elem_of_nil in Ha].
  - rewrite IH, elem_of_union, elem_of_singleton. split.
    + intros [[->|H]|(b & Hb & <-)]; [right|by left|right].
      * exists a. split; [by left|reflexivity].
      * exists b. split; [by right|reflexivity].
    + intros [H|(b & Hb & <-)]; [by left; right|].
      apply elem_of_cons in Hb as [->|Hb]; [by left; left|].
      right. by exists b.
Qed.

Lemma fold_left_union_size {A : Type} (f : A -> string) (l : list A) :
  forall init : gset string,
    size (fold_left (fun acc a => {[ f a ]} ∪ acc) l init)
    <= size init + length l.
Proof.
  induction l as [|a l IH]; intros init; simpl; [lia|].
  etransitivity; [apply IH|].
  rewrite size_union_alt, size_singleton.
  pose proof (subseteq_size (init ∖ {[f a]}) init) as Hs.
  assert (init ∖ {[f a]} ⊆ init) as Hsub
    by (intros x Hx; by apply elem_of_difference in Hx as [Hx _]).
  specialize (Hs Hsub). lia.
Qed.

Lemma providersOf_elem (pcs : list config_ProviderConfig)
    (rs : list config_Resource) (x : string) :
  x ∈ providersOf resourceProvider pcs rs <->
  (exists p, p ∈ pcs /\ ProviderConfig_Name p = x) \/
  (exists r, r ∈ rs /\
             resourceProvider (Resource_Type r) (Resource_Provider r) = x).
Proof.
  unfold providersOf. rewrite !fold_left_union_elem.
  rewrite elem_of_empty. tauto.
Qed.

Lemma ProvidedBy_rangeKeys (pcs : list config_ProviderConfig)
    (rs : list config_Resource) :
  ProvidedBy resourceProvider rangeKeys pcs rs
  = rangeKeys (providersOf resourceProvider pcs rs).
Proof.
  unfold ProvidedBy.
  rewrite (fold_left_snoc_map (fun p => p)). simpl. apply map_id.
Qed.

(** X21. Whatever the order in which the map of the providers is visited,
    [ProvidedBy] returns every provider once: the names of the provider
    configurations and the providers of the resources, and nothing else. It
    returns no more names than there are provider configurations and
    resources. *)
Theorem ProvidedBy_deduplicated (pcs : list config_ProviderConfig)
    (rs : list config_Resource) :
  (forall providers, rangeKeys providers ≡ₚ elements providers) ->
  NoDup (ProvidedBy resourceProvider rangeKeys pcs rs) /\
  (forall x,
      x ∈ ProvidedBy resourceProvider rangeKeys pcs rs <->
      (exists p, p ∈ pcs /\ ProviderConfig_Name p = x) \/
      (exists r, r ∈ rs /\
                 resourceProvider (Resource_Type r) (Resource_Provider r) = x)) /\
  length (ProvidedBy resourceProvider rangeKeys pcs rs)
  <= length pcs + length rs.
Proof.
  intros Hrange. rewrite ProvidedBy_rangeKeys.
  set (providers := providersOf resourceProvider pcs rs).
  split; [|split].
  - rewrite (Hrange providers). apply NoDup_elements.
  - intros x. rewrite (Hrange providers), elem_of_elements.
    apply providersOf_elem.
  - rewrite (Hrange providers).
    change (length (elements providers)) with (size providers).
    unfold providers, providersOf.
    etransitivity; [apply fold_left_union_size|].
    pose proof (fold_left_union_size ProviderConfig_Name pcs ∅) as H.
    rewrite size_empty in H. lia.
Qed.

End ProvidersFacts.

(** The witness of X21: two configurations of the provider [aws] and a
    resource with the alias [aws] give the provider once. *)
Lemma ProvidedBy_deduplicated_witness :
  NoDup (ProvidedBy (fun t alias => alias) elements
           [mkProviderConfig "aws"; mkProviderConfig "aws"]
           [mkResource "aws_instance" "aws"]) /\
  length (ProvidedBy (fun t alias => alias) elements
            [mkProviderConfig "aws"; mkProviderConfig "aws"]
            [mkResource "aws_instance" "aws"]) <= 3.
Proof.
  destruct (ProvidedBy_deduplicated (fun t alias => alias) elements
              [mkProviderConfig "aws"; mkProviderConfig "aws"]
              [mkResource "aws_instance" "aws"])
    as (Hnd & _ & Hlen).
  - reflexivity.
  - split; [exact Hnd|exact Hlen].
Defined.

(** ** Flattening: the path string *)

Lemma pathParts_acc (rest : list string) (parts : list string) :
  fold_left (fun parts p => parts ++ ["module"; p]) rest parts
  = parts ++ flat_map (fun p => ["module"; p]) rest.
Proof.
  revert parts. induction rest as [|p rest IH]; intros parts; simpl.
  - by rewrite app_nil_r.
  - rewrite IH, <- app_assoc. reflexivity.
Qed.

Lemma Join_module_parts (rest : list string) :
  Join (flat_map (fun p => ["module"; p]) rest) "." = qualifiedPath rest.
Proof.
  induction rest as [|p rest IH]; [reflexivity|].
  destruct rest as [|p' rest]; [reflexivity|].
  change (Join (flat_map (fun p => ["module"; p]) (p :: p' :: rest)) ".")
    with ("module" +:+ "." +:+ p +:+ "." +:+
          Join (flat_map (fun p => ["module"; p]) (p' :: rest)) ".").
  rewrite IH. reflexivity.
Qed.

Lemma pathString_qualifiedPath (root : string) (rest : list string) :
  pathString (root :: rest) = Ok (qualifiedPath rest).
Proof.
  unfold pathString. rewrite pathParts_acc. simpl. by rewrite Join_module_parts.
Qed.

(** ** Flattening: the list of the vertices *)

Lemma VerticesList_elem (g : Graph) (vs : list (nat * Vertex)) :
  VerticesList g vs ->
  forall a obj, (a, obj) ∈ vs <-> Vertices g !! a = Some obj.
Proof.
  intros Hvs a obj. unfold VerticesList in Hvs. rewrite Hvs.
  apply elem_of_map_to_list.
Qed.

Lemma VerticesList_NoDup (g : Graph) (vs : list (nat * Vertex)) :
  VerticesList g vs -> NoDup (vs.*1).
Proof.
  intros Hvs. unfold VerticesList in Hvs. rewrite Hvs.
  apply NoDup_fst_map_to_list.
Qed.

Lemma VerticesList_map_to_list (g : Graph) :
  VerticesList g (map_to_list (Vertices g)).
Proof. unfold VerticesList. reflexivity. Qed.

(** ** Flattening: when the loop panics *)

Lemma flattenLoop_panics (pathStr : string) (vs : list (nat * Vertex)) :
  forall (next : nat) (g : Graph),
    (exists a vertexName skip,
        In (a, otherVertex vertexName skip) vs /\ skip <> Some true) ->
    exists msg, flattenLoop pathStr vs next g = Panic msg.
Proof.
  induction vs as [|[v obj] vs IH]; intros next g (a & nm & skip & Hin & Hskip).
  - destruct Hin.
  - destruct Hin as [Heq|Hin].
    + inversion Heq; subst. simpl.
      destruct skip as [[|]|]; [congruence|eauto..].
    + assert (exists a vertexName skip,
                In (a, otherVertex vertexName skip) vs /\ skip <> Some true)
        as Hex by eauto 6.
      simpl. destruct (FlattenSkip obj) as [[|]|]; [by apply IH|..];
        (destruct obj; [by apply IH|eauto]).
Qed.

Lemma flattenLoop_returns (pathStr : string) (vs : list (nat * Vertex)) :
  forall (next : nat) (g : Graph),
    (forall a vertexName skip,
        In (a, otherVertex vertexName skip) vs -> skip = Some true) ->
    exists next' g', flattenLoop pathStr vs next g = Ok (next', g').
Proof.
  induction vs as [|[v obj] vs IH]; intros next g Hall; simpl; [eauto|].
  assert (forall a vertexName skip,
             In (a, otherVertex vertexName skip) vs -> skip = Some true) as Hall'
    by (intros; eapply Hall; right; eauto).
  destruct obj as [wn|nm skip].
  - destruct (FlattenSkip (wrappableVertex wn)) as [[|]|]; by apply IH.
  - rewrite (Hall v nm skip (or_introl eq_refl)). simpl. by apply IH.
Qed.

(** C9. When the graph holds a vertex that is not wrappable and does not
    declare itself skippable (it does not implement the skippable capability,
    or its [FlattenSkip] returns false), [FlattenGraph] panics: it returns no
    graph. *)
Theorem FlattenGraph_panics_on_unwrappable
    (vs : list (nat * Vertex)) (next : nat) (n : graphNodeModuleExpanded)
    (a : nat) (vertexName : string) (skip : option bool) :
  VerticesList (Subgraph n) vs ->
  Vertices (Subgraph n) !! a = Some (otherVertex vertexName skip) ->
  skip <> Some true ->
  exists msg, FlattenGraph vs next n = Panic msg.
Proof.
  intros Hvs Hv Hskip. unfold FlattenGraph.
  destruct (pathString (Path (Subgraph n))) as [pathStr|msg]; [|eauto].
  apply flattenLoop_panics. exists a, vertexName, skip. split; [|assumption].
  by apply list_elem_of_In, (VerticesList_elem _ _ Hvs).
Qed.

(** When the path is not empty and every vertex that is not wrappable declares
    itself skippable, [FlattenGraph] returns. *)
Lemma FlattenGraph_returns (vs : list (nat * Vertex)) (next : nat)
    (n : graphNodeModuleExpanded) (root : string) (rest : list string) :
  VerticesList (Subgraph n) vs ->
  Path (Subgraph n) = root :: rest ->
  (forall a vertexName skip,
      Vertices (Subgraph n) !! a = Some (otherVertex vertexName skip) ->
      skip = Some true) ->
  exists next' g', FlattenGraph vs next n = Ok (next', g').
Proof.
  intros Hvs Hpath Hall. unfold FlattenGraph.
  rewrite Hpath, pathString_qualifiedPath.
  apply flattenLoop_returns. intros a nm skip Hin.
  apply (Hall a nm skip).
  by apply (VerticesList_elem _ _ Hvs), list_elem_of_In.
Qed.

(** ** Flattening: the identities the loop gives *)

Lemma rewire_ne (v next x : nat) : x <> v -> rewire v next x = x.
Proof. intros Hne. unfold rewire. by destruct (decide (x = v)). Qed.

Lemma rewire_eq (v next : nat) : rewire v next v = next.
Proof. unfold rewire. by destruct (decide (v = v)). Qed.

Lemma renaming_fixed (vs : list (nat * Vertex)) :
  forall next x, x ∉ vs.*1 -> renaming vs next x = x.
Proof.
  induction vs as [|[v obj] vs IH]; intros next x Hx; simpl; [reflexivity|].
  rewrite fmap_cons, not_elem_of_cons in Hx. destruct Hx as [Hne Hx].
  destruct (skipped obj); [by apply IH|].
  rewrite rewire_ne by assumption. by apply IH.
Qed.

Lemma renaming_range (vs : list (nat * Vertex)) :
  forall next x obj,
    NoDup (vs.*1) -> (forall a, a ∈ vs.*1 -> a < next) ->
    (x, obj) ∈ vs -> skipped obj = false ->
    next <= renaming vs next x < next + length vs.
Proof.
  induction vs as [|[v o] vs IH]; intros next x obj Hnd Hlt Hin Hsk.
  - by apply elem_of_nil in Hin.
  - rewrite fmap_cons in Hnd. apply NoDup_cons in Hnd as [Hv Hnd].
    assert (forall a, a ∈ vs.*1 -> a < next) as Hlt'
      by (intros a Ha; apply Hlt; rewrite fmap_cons; by right).
    assert (next ∉ vs.*1) as Hnext by (intros Hn; apply Hlt' in Hn; lia).
    apply elem_of_cons in Hin as [Heq|Hin]; simpl.
    + inversion Heq; subst. rewrite Hsk, rewire_eq.
      rewrite renaming_fixed by assumption. lia.
    + assert (x <> v) as Hxv.
      { intros ->. apply Hv. apply list_elem_of_fmap. by exists (v, obj). }
      destruct (skipped o).
      * specialize (IH next x obj Hnd Hlt' Hin Hsk). lia.
      * rewrite rewire_ne by assumption.
        assert (forall a, a ∈ vs.*1 -> a < S next) as Hlt''
          by (intros a Ha; apply Hlt' in Ha; lia).
        specialize (IH (S next) x obj Hnd Hlt'' Hin Hsk). lia.
Qed.

Lemma renaming_inj (vs : list (nat * Vertex)) :
  forall next x ox y oy,
    NoDup (vs.*1) -> (forall a, a ∈ vs.*1 -> a < next) ->
    (x, ox) ∈ vs -> skipped ox = false ->
    (y, oy) ∈ vs -> skipped oy = false ->
    renaming vs next x = renaming vs next y -> x = y.
Proof.
  induction vs as [|[v o] vs IH]; intros next x ox y oy Hnd Hlt Hx Hsx Hy Hsy Heq.
  - by apply elem_of_nil in Hx.
  - pose proof Hnd as Hnd0. rewrite fmap_cons in Hnd. apply NoDup_cons in Hnd as [Hv Hnd].
    assert (forall a, a ∈ vs.*1 -> a < next) as Hlt'
      by (intros a Ha; apply Hlt; rewrite fmap_cons; by right).
    assert (forall a, a ∈ vs.*1 -> a < S next) as Hlt''
      by (intros a Ha; apply Hlt' in Ha; lia).
    assert (next ∉ vs.*1) as Hnext by (intros Hn; apply Hlt' in Hn; lia).
    assert (forall z oz, (z, oz) ∈ vs -> z <> v) as Hne.
    { intros z oz Hz ->. apply Hv. apply list_elem_of_fmap. by exists (v, oz). }
    apply elem_of_cons in Hx as [Hx|Hx]; apply elem_of_cons in Hy as [Hy|Hy].
    + congruence.
    + inversion Hx; subst. simpl in Heq. rewrite Hsx, rewire_eq in Heq.
      rewrite renaming_fixed in Heq by assumption.
      rewrite (rewire_ne v next y) in Heq by eauto.
      pose proof (renaming_range vs (S next) y oy Hnd Hlt'' Hy Hsy). lia.
    + inversion Hy; subst. simpl in Heq. rewrite Hsy, rewire_eq in Heq.
      rewrite (renaming_fixed vs (S next) next) in Heq by assumption.
      rewrite (rewire_ne v next x) in Heq by eauto.
      pose proof (renaming_range vs (S next) x ox Hnd Hlt'' Hx Hsx). lia.
    + simpl in Heq. destruct (skipped o).
      * by apply (IH next x ox y oy).
      * rewrite !rewire_ne in Heq by eauto. by apply (IH (S next) x ox y oy).
Qed.

(** ** Flattening: the vertices and the edges after the loop *)

Section FlattenLoopFacts.

Variable pathStr : string.

Lemma skipped_true (obj : Vertex) :
  skipped obj = true <-> FlattenSkip obj = Some true.
Proof. unfold skipped. destruct (FlattenSkip obj) as [[|]|]; split; congruence. Qed.

(** One iteration of the loop, by the three ways it can go. *)
Lemma flattenLoop_cons (v : nat) (obj : Vertex) (vs : list (nat * Vertex))
    (next : nat) (g : Graph) :
  flattenLoop pathStr ((v, obj) :: vs) next g =
  if skipped obj then flattenLoop pathStr vs next (Remove g v)
  else match obj with
       | otherVertex _ _ => Panic ("unwrappable node: " +:+ VertexName obj)
       | wrappableVertex wn =>
           flattenLoop pathStr vs (S next)
             (Replace g v next (flatWrap (Path g) pathStr wn))
       end.
Proof.
  simpl. unfold skipped. by destruct (FlattenSkip obj) as [[|]|].
Qed.

Lemma flattenLoop_vertices (vs : list (nat * Vertex)) :
  forall next g next' g',
    NoDup (vs.*1) ->
    (forall a obj, (a, obj) ∈ vs -> Vertices g !! a = Some obj) ->
    (forall a, a ∈ dom (Vertices g) -> a < next) ->
    flattenLoop pathStr vs next g = Ok (next', g') ->
    Path g' = Path g /\
    forall a' obj',
      Vertices g' !! a' = Some obj' <->
      ((a' ∉ vs.*1) /\ Vertices g !! a' = Some obj') \/
      (exists a wn,
          (a, wrappableVertex wn) ∈ vs /\
          skipped (wrappableVertex wn) = false /\
          a' = renaming vs next a /\
          obj' = flatWrap (Path g) pathStr wn).
Proof.
  induction vs as [|[v obj] vs IH]; intros next g next' g' Hnd Hin Hlt Hrun.
  - simpl in Hrun. inversion Hrun; subst. split; [reflexivity|].
    intros a' obj'. split.
    + intros H. left. split; [apply not_elem_of_nil|assumption].
    + intros [[_ H]|(a & wn & Ha & _)]; [assumption|by apply elem_of_nil in Ha].
  - rewrite flattenLoop_cons in Hrun.
    rewrite fmap_cons in Hnd. apply NoDup_cons in Hnd as [Hv Hnd].
    assert (Vertices g !! v = Some obj) as Hvobj by (apply Hin; by left).
    assert (forall z oz, (z, oz) ∈ vs -> z <> v) as Hne.
    { intros z oz Hz ->. apply Hv. apply list_elem_of_fmap. by exists (v, oz). }
    assert (forall z oz, (z, oz) ∈ vs -> z < next) as Hkeys.
    { intros z oz Hz. apply Hlt, elem_of_dom. exists oz. apply Hin. by right. }
    assert (v < next) as Hvlt by (apply Hlt, elem_of_dom; eauto).
    assert (next ∉ vs.*1) as Hnext.
    { intros Hn. apply list_elem_of_fmap in Hn as ([z oz] & -> & Hz).
      apply Hkeys in Hz. simpl in Hz. lia. }
    destruct (skipped obj) eqn:Hsk.
    + (* the vertex is removed *)
      destruct (IH next (Remove g v) next' g' Hnd) as [Hpath Hiff]; [| |exact Hrun|].
      { intros a o Ha. simpl. rewrite lookup_delete_ne by (symmetry; eauto).
        apply Hin. by right. }
      { intros a Ha. apply Hlt. simpl in Ha. rewrite dom_delete in Ha.
        by apply elem_of_difference in Ha as [Ha _]. }
      split; [exact Hpath|]. intros a' obj'. rewrite Hiff. simpl.
      rewrite ?fmap_cons, not_elem_of_cons. split.
      * intros [[Ha' Hl]|(a & wn & Ha & Hs & -> & ->)].
        -- left. destruct (decide (a' = v)) as [->|Hd].
           ++ by rewrite lookup_delete_eq in Hl.
           ++ rewrite lookup_delete_ne in Hl by done. done.
        -- right. exists a, wn. rewrite Hsk. repeat split; try done. by right.
      * intros [[[Hd Ha'] Hl]|(a & wn & Ha & Hs & Hr & ->)].
        -- left. split; [done|]. by rewrite lookup_delete_ne.
        -- right. rewrite Hsk in Hr. apply elem_of_cons in Ha as [Ha|Ha].
           ++ inversion Ha; subst. congruence.
           ++ exists a, wn. done.
    + destruct obj as [wn|nm skip]; [|discriminate].
      set (fw := flatWrap (Path g) pathStr wn) in *.
      destruct (IH (S next) (Replace g v next fw) next' g' Hnd)
        as [Hpath Hiff]; [| |exact Hrun|].
      { intros a o Ha. simpl.
        rewrite lookup_delete_ne by (symmetry; eauto).
        rewrite lookup_insert_ne by (apply Hkeys in Ha; lia).
        apply Hin. by right. }
      { intros a Ha. simpl in Ha. rewrite dom_delete, dom_insert in Ha.
        apply elem_of_difference in Ha as [Ha _].
        apply elem_of_union in Ha as [Ha|Ha].
        - apply elem_of_singleton in Ha. lia.
        - apply Hlt in Ha. lia. }
      split; [exact Hpath|]. intros a' obj'. rewrite Hiff. simpl.
      rewrite ?fmap_cons, not_elem_of_cons. split.
      * intros [[Ha' Hl]|(a & wn' & Ha & Hs & -> & ->)].
        -- destruct (decide (a' = v)) as [->|Hd];
             [by rewrite lookup_delete_eq in Hl|].
           rewrite lookup_delete_ne in Hl by done.
           destruct (decide (a' = next)) as [->|Hd'].
           ++ rewrite lookup_insert_eq in Hl. inversion Hl; subst.
              right. exists v, wn. rewrite Hsk, rewire_eq.
              rewrite renaming_fixed by assumption.
              repeat split; try done. by left.
           ++ rewrite lookup_insert_ne in Hl by done. left. done.
        -- right. exists a, wn'. rewrite Hsk.
           rewrite rewire_ne by eauto. repeat split; try done. by right.
      * intros [[[Hd Ha'] Hl]|(a & wn' & Ha & Hs & Hr & ->)].
        -- left. split; [done|]. rewrite lookup_delete_ne by done.
           rewrite lookup_insert_ne; [done|].
           intros <-. assert (next < next); [|lia].
           apply Hlt, elem_of_dom. eauto.
        -- rewrite Hsk in Hr. apply elem_of_cons in Ha as [Ha|Ha].
           ++ inversion Ha; subst. rewrite rewire_eq.
              rewrite renaming_fixed by assumption. left. split; [done|].
              rewrite lookup_delete_ne by lia. by rewrite lookup_insert_eq.
           ++ rewrite rewire_ne in Hr by eauto. right. exists a, wn'. done.
Qed.

Lemma skippedKeys_cons (v : nat) (obj : Vertex) (vs : list (nat * Vertex)) :
  skippedKeys ((v, obj) :: vs) =
  if skipped obj then v :: skippedKeys vs else skippedKeys vs.
Proof.
  unfold skippedKeys. rewrite filter_cons. simpl.
  destruct (skipped obj); by case_decide.
Qed.

Lemma skippedKeys_subset (vs : list (nat * Vertex)) (x : nat) :
  x ∈ skippedKeys vs -> x ∈ vs.*1.
Proof.
  unfold skippedKeys. intros Hx.
  apply list_elem_of_fmap in Hx as (p & -> & Hp).
  apply list_elem_of_filter in Hp as [_ Hp].
  apply list_elem_of_fmap. by exists p.
Qed.

Lemma skippedKeys_elem (vs : list (nat * Vertex)) (x : nat) :
  x ∈ skippedKeys vs <-> exists obj, (x, obj) ∈ vs /\ skipped obj = true.
Proof.
  unfold skippedKeys. rewrite list_elem_of_fmap. split.
  - intros ([y obj] & -> & Hp). apply list_elem_of_filter in Hp as [Hs Hp].
    by exists obj.
  - intros (obj & Hin & Hs). exists (x, obj). split; [reflexivity|].
    by apply list_elem_of_filter.
Qed.

Lemma flattenLoop_edges (vs : list (nat * Vertex)) :
  forall next g next' g',
    NoDup (vs.*1) ->
    (forall a, a ∈ vs.*1 -> a < next) ->
    flattenLoop pathStr vs next g = Ok (next', g') ->
    Edges g' =
    set_map (prod_map (renaming vs next) (renaming vs next))
      (filter (fun e => (e.1 ∉ skippedKeys vs) /\ (e.2 ∉ skippedKeys vs))
         (Edges g)).
Proof.
  induction vs as [|[v obj] vs IH]; intros next g next' g' Hnd Hlt Hrun.
  - simpl in Hrun. inversion Hrun; subst. apply set_eq. intros [s t].
    rewrite elem_of_map. split.
    + intros H. exists (s, t). split; [reflexivity|].
      apply elem_of_filter. repeat split; [apply not_elem_of_nil..|assumption].
    + intros ([s0 t0] & Heq & H). apply elem_of_filter in H as [_ H].
      simpl in Heq. by inversion Heq; subst.
  - rewrite flattenLoop_cons in Hrun.
    rewrite fmap_cons in Hnd. apply NoDup_cons in Hnd as [Hv Hnd].
    assert (forall a, a ∈ vs.*1 -> a < next) as Hlt'
      by (intros a Ha; apply Hlt; rewrite fmap_cons; by right).
    assert (forall a, a ∈ vs.*1 -> a < S next) as Hlt''
      by (intros a Ha; apply Hlt' in Ha; lia).
    assert (next ∉ vs.*1) as Hnext by (intros Hn; apply Hlt' in Hn; lia).
    assert (v ∉ skippedKeys vs) as Hvs
      by (intros Hn; by apply skippedKeys_subset in Hn).
    assert (next ∉ skippedKeys vs) as Hns
      by (intros Hn; by apply skippedKeys_subset in Hn).
    rewrite skippedKeys_cons. simpl renaming.
    destruct (skipped obj) eqn:Hsk.
    + rewrite (IH next (Remove g v) next' g' Hnd Hlt' Hrun). simpl.
      apply set_eq. intros [s t]. rewrite !elem_of_map.
      split; intros ([s0 t0] & Heq & H); exists (s0, t0); (split; [exact Heq|]);
        rewrite !elem_of_filter in *; simpl in *;
        rewrite ?not_elem_of_cons in *; tauto.
    + destruct obj as [wn|nm skip]; [|discriminate].
      rewrite (IH (S next) _ next' g' Hnd Hlt'' Hrun). simpl.
      apply set_eq. intros [s t]. rewrite !elem_of_map. split.
      * intros ([s1 t1] & Heq & H). apply elem_of_filter in H as [[H1 H2] H].
        apply elem_of_map in H as ([s0 t0] & Heq0 & H0).
        simpl in *. inversion Heq0; subst. exists (s0, t0). split; [exact Heq|].
        apply elem_of_filter. simpl. split; [|assumption].
        unfold rewire in H1, H2.
        split; [destruct (decide (s0 = v))|destruct (decide (t0 = v))];
          subst; assumption.
      * intros ([s0 t0] & Heq & H). apply elem_of_filter in H as [[H1 H2] H].
        simpl in *.
        exists (rewire v next s0, rewire v next t0). split; [exact Heq|].
        apply elem_of_filter. simpl. split.
        -- unfold rewire.
           split; [destruct (decide (s0 = v))|destruct (decide (t0 = v))];
             assumption.
        -- apply elem_of_map. by exists (s0, t0).
Qed.

End FlattenLoopFacts.

(** ** Flattening: the whole graph *)

Lemma retainedSet_elem (g : Graph) (a : nat) :
  a ∈ retainedSet g <-> retained g a.
Proof.
  unfold retainedSet, retained. rewrite elem_of_dom. split.
  - intros [obj H]. apply map_lookup_filter_Some in H as [H Hs]. by exists obj.
  - intros (obj & H & Hs). exists obj. by apply map_lookup_filter_Some.
Qed.

Lemma retained_wrappable_or_panic (g : Graph) (a : nat) (obj : Vertex) :
  Vertices g !! a = Some obj -> skipped obj = false ->
  (forall a nm skip, Vertices g !! a = Some (otherVertex nm skip) -> skip = Some true) ->
  exists wn, obj = wrappableVertex wn.
Proof.
  intros Ha Hs Hall. destruct obj as [wn|nm skip]; [by exists wn|].
  rewrite (Hall a nm skip Ha) in Hs. discriminate.
Qed.

Lemma skippedSet_elem (g : Graph) (a : nat) :
  a ∈ skippedSet g <-> exists obj, Vertices g !! a = Some obj /\ skipped obj = true.
Proof.
  unfold skippedSet. rewrite elem_of_dom. split.
  - intros [obj H]. apply map_lookup_filter_Some in H as [H Hs]. by exists obj.
  - intros (obj & H & Hs). exists obj. by apply map_lookup_filter_Some.
Qed.

Lemma skippedKeys_VerticesList (g : Graph) (vs : list (nat * Vertex)) (a : nat) :
  VerticesList g vs ->
  a ∈ skippedKeys vs <-> a ∈ skippedSet g.
Proof.
  intros Hvs. rewrite skippedKeys_elem, skippedSet_elem.
  split; intros (obj & H & Hs); exists obj; (split; [|exact Hs]);
    by apply (VerticesList_elem _ _ Hvs).
Qed.

(** What [FlattenGraph] returns, in terms of the identities the loop gives. *)
Lemma FlattenGraph_spec (vs : list (nat * Vertex)) (next : nat)
    (n : graphNodeModuleExpanded) (next' : nat) (g' : Graph) :
  VerticesList (Subgraph n) vs ->
  allocOk next (Subgraph n) ->
  FlattenGraph vs next n = Ok (next', g') ->
  let g := Subgraph n in
  let ren := renaming vs next in
  exists pathStr,
    pathString (Path g) = Ok pathStr /\
    Path g' = Path g /\
    (forall a' obj',
        Vertices g' !! a' = Some obj' <->
        exists a wn,
          Vertices g !! a = Some (wrappableVertex wn) /\
          skipped (wrappableVertex wn) = false /\
          a' = ren a /\ obj' = flatWrap (Path g) pathStr wn) /\
    Edges g' =
      set_map (prod_map ren ren)
        (filter (fun e => (e.1 ∉ skippedSet g) /\ (e.2 ∉ skippedSet g)) (Edges g)) /\
    (forall a, retained g a -> next <= ren a) /\
    (forall a, a ∉ dom (Vertices g) -> ren a = a) /\
    (forall a b, retained g a -> retained g b -> ren a = ren b -> a = b).
Proof.
  intros Hvs [Hlt Hedges] Hrun g ren. unfold FlattenGraph in Hrun. fold g in Hrun.
  destruct (pathString (Path g)) as [pathStr|msg] eqn:Hps; [|discriminate].
  pose proof (VerticesList_NoDup _ _ Hvs) as Hnd.
  pose proof (VerticesList_elem _ _ Hvs) as Hel. fold g in Hel.
  assert (forall a, a ∈ vs.*1 <-> a ∈ dom (Vertices g)) as Hkeys.
  { intros a. rewrite elem_of_dom, list_elem_of_fmap. split.
    - intros ([a0 obj] & -> & H). apply Hel in H. by exists obj.
    - intros [obj H]. exists (a, obj). split; [reflexivity|]. by apply Hel. }
  assert (forall a, a ∈ vs.*1 -> a < next) as Hlt'
    by (intros a Ha; by apply Hlt, Hkeys).
  destruct (flattenLoop_vertices pathStr vs next g next' g' Hnd) as [Hpath Hiff];
    [by intros a obj H; apply Hel|exact Hlt|exact Hrun|].
  pose proof (flattenLoop_edges pathStr vs next g next' g' Hnd Hlt' Hrun) as He.
  exists pathStr. split; [reflexivity|]. split; [exact Hpath|].
  repeat split.
  - intros H. apply Hiff in H as [[Hn H]|(a & wn & Ha & Hs & -> & ->)].
    + exfalso. apply Hn, Hkeys, elem_of_dom. eauto.
    + exists a, wn. repeat split; try done. by apply Hel.
  - intros (a & wn & Ha & Hs & -> & ->). apply Hiff. right.
    exists a, wn. repeat split; try done. by apply Hel.
  - rewrite He. f_equal. apply set_eq. intros [s t].
    rewrite !elem_of_filter. simpl.
    by rewrite !(skippedKeys_VerticesList g vs _ Hvs).
  - intros a (obj & Ha & Hs).
    apply (renaming_range vs next a obj); try done. by apply Hel.
  - intros a Ha. apply renaming_fixed. by rewrite Hkeys.
  - intros a b (oa & Ha & Hsa) (ob & Hb & Hsb).
    apply (renaming_inj vs next a oa b ob); try done; by apply Hel.
Qed.

(** ** Flattening: names *)

(** C7. For a graph whose path is a root segment followed by [rest],
    [FlattenGraph] computes one path string: for each name of [rest] the
    segment [module] and the name, all joined by dots. Every retained vertex
    is replaced by a flat wrap that carries this string, whose name is the
    string, a dot and the name of the vertex it wraps; and the graph that is
    returned holds no other vertex. *)
Theorem FlattenGraph_qualified_names (vs : list (nat * Vertex)) (next : nat)
    (n : graphNodeModuleExpanded) (root : string) (rest : list string)
    (next' : nat) (g' : Graph) :
  VerticesList (Subgraph n) vs ->
  allocOk next (Subgraph n) ->
  Path (Subgraph n) = root :: rest ->
  FlattenGraph vs next n = Ok (next', g') ->
  pathString (Path (Subgraph n)) = Ok (qualifiedPath rest) /\
  (forall a wn,
      Vertices (Subgraph n) !! a = Some (wrappableVertex wn) ->
      skipped (wrappableVertex wn) = false ->
      exists a',
        Vertices g' !! a' =
          Some (wrappableVertex
                  (graphNodeModuleFlatWrap wn (root :: rest) (qualifiedPath rest))) /\
        Name (graphNodeModuleFlatWrap wn (root :: rest) (qualifiedPath rest))
        = qualifiedPath rest +:+ "." +:+ Name wn) /\
  (forall a' obj',
      Vertices g' !! a' = Some obj' ->
      exists a wn,
        Vertices (Subgraph n) !! a = Some (wrappableVertex wn) /\
        skipped (wrappableVertex wn) = false /\
        obj' = wrappableVertex
                 (graphNodeModuleFlatWrap wn (root :: rest) (qualifiedPath rest)) /\
        VertexName obj' = qualifiedPath rest +:+ "." +:+ Name wn).
Proof.
  intros Hvs Halloc Hpath Hrun.
  destruct (FlattenGraph_spec vs next n next' g' Hvs Halloc Hrun)
    as (pathStr & Hps & _ & Hiff & _).
  rewrite Hpath, pathString_qualifiedPath in Hps. inversion Hps; subst pathStr.
  rewrite Hpath in *. split; [apply pathString_qualifiedPath|]. split.
  - intros a wn Ha Hs. eexists. split; [|reflexivity].
    apply Hiff. exists a, wn. done.
  - intros a' obj' H. apply Hiff in H as (a & wn & Ha & Hs & _ & ->).
    exists a, wn. done.
Qed.

(** C10. When the path of the graph is the root segment alone, the path
    string is empty, and the name of the flat wrap that replaces a retained
    vertex is a dot followed by the name of the vertex: the path string is
    put in front with its dot whatever it is. *)
Theorem FlattenGraph_root_path_leading_dot (vs : list (nat * Vertex))
    (next : nat) (n : graphNodeModuleExpanded) (root : string)
    (next' : nat) (g' : Graph) :
  VerticesList (Subgraph n) vs ->
  allocOk next (Subgraph n) ->
  Path (Subgraph n) = [root] ->
  FlattenGraph vs next n = Ok (next', g') ->
  pathString (Path (Subgraph n)) = Ok EmptyString /\
  (forall a wn,
      Vertices (Subgraph n) !! a = Some (wrappableVertex wn) ->
      skipped (wrappableVertex wn) = false ->
      exists a',
        Vertices g' !! a' =
          Some (wrappableVertex (graphNodeModuleFlatWrap wn [root] EmptyString))) /\
  (forall a' obj',
      Vertices g' !! a' = Some obj' ->
      exists wn,
        obj' = wrappableVertex (graphNodeModuleFlatWrap wn [root] EmptyString) /\
        VertexName obj' = String "." (Name wn)).
Proof.
  intros Hvs Halloc Hpath Hrun.
  destruct (FlattenGraph_spec vs next n next' g' Hvs Halloc Hrun)
    as (pathStr & Hps & _ & Hiff & _).
  rewrite Hpath in *. simpl in Hps. inversion Hps; subst pathStr.
  split; [reflexivity|]. split.
  - intros a wn Ha Hs. eexists. apply Hiff. exists a, wn. done.
  - intros a' obj' H. apply Hiff in H as (a & wn & Ha & Hs & _ & ->).
    exists wn. done.
Qed.

(** ** Flattening: skipped vertices and edges *)

Lemma size_set_map_inj_on (f : nat * nat -> nat * nat) (X : gset (nat * nat)) :
  (forall x y, x ∈ X -> y ∈ X -> f x = f y -> x = y) ->
  size (set_map f X : gset (nat * nat)) = size X.
Proof.
  intros Hinj. unfold set_map. rewrite size_list_to_set.
  - by rewrite length_fmap.
  - apply NoDup_fmap_2_strong; [|apply NoDup_elements].
    intros x y Hx Hy. apply Hinj; by apply elem_of_elements.
Qed.

(** C8. [FlattenGraph] gives every retained vertex a new identity, one for
    each, and the vertices of the graph it returns are exactly the flat wraps
    of the retained vertices under these identities. A vertex that declares
    itself skippable is in the graph no longer, and no edge starts or ends at
    it. The edges between vertices of the returned graph are exactly the edges
    between retained vertices, under the new identities, and there are as
    many of them as before. *)
Theorem FlattenGraph_removes_skipped_keeps_edges (vs : list (nat * Vertex))
    (next : nat) (n : graphNodeModuleExpanded) (next' : nat) (g' : Graph) :
  VerticesList (Subgraph n) vs ->
  allocOk next (Subgraph n) ->
  FlattenGraph vs next n = Ok (next', g') ->
  exists ren : nat -> nat,
    (forall a b,
        retained (Subgraph n) a -> retained (Subgraph n) b ->
        ren a = ren b -> a = b) /\
    (forall a', a' ∈ dom (Vertices g') <->
                exists a, retained (Subgraph n) a /\ a' = ren a) /\
    (forall a wn,
        Vertices (Subgraph n) !! a = Some (wrappableVertex wn) ->
        skipped (wrappableVertex wn) = false ->
        exists pathStr,
          Vertices g' !! ren a =
          Some (flatWrap (Path (Subgraph n)) pathStr wn)) /\
    (forall a obj,
        Vertices (Subgraph n) !! a = Some obj -> skipped obj = true ->
        (a ∉ dom (Vertices g')) /\
        forall e, e ∈ Edges g' -> e.1 <> a /\ e.2 <> a) /\
    edgesAmong (dom (Vertices g')) (Edges g')
    = set_map (prod_map ren ren)
        (edgesAmong (retainedSet (Subgraph n)) (Edges (Subgraph n))) /\
    size (edgesAmong (dom (Vertices g')) (Edges g'))
    = size (edgesAmong (retainedSet (Subgraph n)) (Edges (Subgraph n))).
Proof.
  intros Hvs Halloc Hrun.
  destruct (FlattenGraph_spec vs next n next' g' Hvs Halloc Hrun)
    as (pathStr & Hps & _ & Hiff & He & Hge & Hfix & Hinj).
  destruct Halloc as [Hlt Helt].
  set (g := Subgraph n) in *.
  set (ren := renaming vs next) in *.
  assert (forall a', a' ∈ dom (Vertices g') <->
                     exists a, retained g a /\ a' = ren a) as Hdom.
  { intros a'. rewrite elem_of_dom. split.
    - intros [obj' H]. apply Hiff in H as (a & wn & Ha & Hs & -> & _).
      exists a. split; [|reflexivity]. by exists (wrappableVertex wn).
    - intros (a & (obj & Ha & Hs) & ->).
      destruct obj as [wn|nm skip].
      + eexists. apply Hiff. exists a, wn. done.
      + exfalso.
        destruct (flattenLoop_panics pathStr vs next g) as [msg Hp].
        { exists a, nm, skip. split.
          - by apply list_elem_of_In, (VerticesList_elem _ _ Hvs).
          - intros ->. discriminate. }
        unfold FlattenGraph in Hrun. fold g in Hrun. rewrite Hps in Hrun.
        congruence. }
  assert (forall x, x ∉ skippedSet g -> retained g x \/ x ∉ dom (Vertices g))
    as Hcases.
  { intros x Hx. destruct (decide (x ∈ dom (Vertices g))) as [Hd|Hd]; [|by right].
    left. apply elem_of_dom in Hd as [obj Hobj]. exists obj. split; [done|].
    destruct (skipped obj) eqn:Hs; [|done].
    exfalso. apply Hx, skippedSet_elem. eauto. }
  assert (forall x, x < next -> x ∉ skippedSet g ->
                    ren x ∈ dom (Vertices g') -> retained g x) as Hback.
  { intros x Hx Hns Hin. destruct (Hcases x Hns) as [Hr|Hd]; [done|].
    exfalso. apply Hdom in Hin as (a & Hr & Heq).
    specialize (Hge a Hr). rewrite (Hfix x Hd) in Heq. lia. }
  assert (forall x, retained g x -> x ∉ skippedSet g) as Hrs.
  { intros x (obj & Hx & Hs) Hin. apply skippedSet_elem in Hin as (obj' & Hx' & Hs').
    congruence. }
  assert (edgesAmong (dom (Vertices g')) (Edges g')
          = set_map (prod_map ren ren) (edgesAmong (retainedSet g) (Edges g)))
    as Hamong.
  { apply set_eq. intros [s' t']. unfold edgesAmong.
    rewrite elem_of_filter, He, !elem_of_map. simpl. split.
    - intros [[Hs' Ht'] ([s t] & Heq & Hin)].
      apply elem_of_filter in Hin as [[Hs Ht] Hin]. simpl in *.
      inversion Heq; subst. destruct (Helt _ Hin) as [Hslt Htlt]. simpl in *.
      exists (s, t). split; [reflexivity|]. apply elem_of_filter. simpl.
      rewrite !retainedSet_elem. auto.
    - intros ([s t] & Heq & Hin).
      apply elem_of_filter in Hin as [[Hs Ht] Hin]. simpl in *.
      apply retainedSet_elem in Hs, Ht. inversion Heq; subst. split.
      + split; apply Hdom; eauto.
      + exists (s, t). split; [reflexivity|]. apply elem_of_filter. simpl. auto. }
  exists ren. split; [exact Hinj|]. split; [exact Hdom|]. split; [|split; [|split]].
  - intros a wn Ha Hs. exists pathStr. apply Hiff. exists a, wn. done.
  - intros a obj Ha Hs.
    assert (a < next) as Halt by (apply Hlt, elem_of_dom; eauto).
    assert (a ∈ skippedSet g) as Hask by (apply skippedSet_elem; eauto).
    split.
    + intros Hin. apply Hdom in Hin as (b & Hr & Heq).
      specialize (Hge b Hr). lia.
    + intros [s' t'] Hin. rewrite He in Hin.
      apply elem_of_map in Hin as ([s t] & Heq & Hin).
      apply elem_of_filter in Hin as [[Hs' Ht'] Hin]. simpl in *.
      inversion Heq; subst.
      split.
      * destruct (Hcases s Hs') as [Hr|Hd].
        -- specialize (Hge s Hr). fold ren in Hge. lia.
        -- rewrite (Hfix s Hd). intros ->. apply Hd, elem_of_dom. eauto.
      * destruct (Hcases t Ht') as [Hr|Hd].
        -- specialize (Hge t Hr). fold ren in Hge. lia.
        -- rewrite (Hfix t Hd). intros ->. apply Hd, elem_of_dom. eauto.
  - exact Hamong.
  - rewrite Hamong. apply size_set_map_inj_on.
    intros [s t] [s2 t2] H1 H2 Heq.
    apply elem_of_filter in H1 as [[Hs Ht] _].
    apply elem_of_filter in H2 as [[Hs2 Ht2] _]. simpl in *.
    apply retainedSet_elem in Hs, Ht, Hs2, Ht2.
    inversion Heq. f_equal; by apply Hinj.
Qed.

(** ** Flattening on examples *)

Lemma allocOk_webExpanded : allocOk 1 (Subgraph webExpanded).
Proof.
  split.
  - intros a Ha. simpl in Ha. rewrite dom_singleton_L in Ha.
    apply elem_of_singleton in Ha. lia.
  - intros e He. simpl in He. by apply elem_of_empty in He.
Qed.

Lemma allocOk_rootExpanded : allocOk 1 (Subgraph rootExpanded).
Proof.
  split.
  - intros a Ha. simpl in Ha. rewrite dom_singleton_L in Ha.
    apply elem_of_singleton in Ha. lia.
  - intros e He. simpl in He. by apply elem_of_empty in He.
Qed.

Lemma allocOk_threeExpanded : allocOk 3 (Subgraph threeExpanded).
Proof.
  split.
  - intros a Ha. simpl in Ha. rewrite !dom_insert_L, dom_singleton_L in Ha.
    set_unfold. lia.
  - intros [s t] He. simpl in *. set_unfold.
    destruct He as [[H|H]|H]; inversion H; lia.
Qed.

Lemma FlattenGraph_webExpanded :
  FlattenGraph (map_to_list (Vertices (Subgraph webExpanded))) 1 webExpanded
  = Ok (2, webFlattened).
Proof. vm_compute. reflexivity. Qed.

Lemma FlattenGraph_rootExpanded :
  FlattenGraph (map_to_list (Vertices (Subgraph rootExpanded))) 1 rootExpanded
  = Ok (2, rootFlattened).
Proof. vm_compute. reflexivity. Qed.

(** The skippable vertex first, then the two resources. *)
Lemma VerticesList_threeExpanded :
  VerticesList (Subgraph threeExpanded)
    [(2, otherVertex "inputs" (Some true));
     (0, wrappableVertex (configNode "aws_instance.web" None));
     (1, wrappableVertex (configNode "aws_instance.db" (Some false)))].
Proof.
  unfold VerticesList.
  replace (map_to_list (Vertices (Subgraph threeExpanded)))
    with [(2, otherVertex "inputs" (Some true));
          (1, wrappableVertex (configNode "aws_instance.db" (Some false)));
          (0, wrappableVertex (configNode "aws_instance.web" None))]
    by (vm_compute; reflexivity).
  apply perm_skip, perm_swap.
Qed.

Lemma FlattenGraph_threeExpanded :
  FlattenGraph
    [(2, otherVertex "inputs" (Some true));
     (0, wrappableVertex (configNode "aws_instance.web" None));
     (1, wrappableVertex (configNode "aws_instance.db" (Some false)))]
    3 threeExpanded
  = Ok (5, threeFlattened).
Proof. vm_compute. reflexivity. Qed.

(** The witness of C7: the resource [aws_instance.web] of the module at the
    path root, [net] is named [module.net.aws_instance.web]. *)
Lemma FlattenGraph_qualified_names_witness :
  pathString (Path (Subgraph webExpanded)) = Ok "module.net" /\
  exists a',
    Vertices webFlattened !! a' =
      Some (wrappableVertex
              (graphNodeModuleFlatWrap (configNode "aws_instance.web" None)
                 ["root"; "net"] "module.net")) /\
    Name (graphNodeModuleFlatWrap (configNode "aws_instance.web" None)
            ["root"; "net"] "module.net")
    = "module.net.aws_instance.web".
Proof.
  destruct (FlattenGraph_qualified_names _ 1 webExpanded "root" ["net"] 2
              webFlattened (VerticesList_map_to_list _) allocOk_webExpanded
              eq_refl FlattenGraph_webExpanded)
    as (Hps & Hwrap & _).
  split; [exact Hps|].
  exact (Hwrap 0 (configNode "aws_instance.web" None) eq_refl eq_refl).
Defined.

(** The witness of C10: at the root path the name has a leading dot. *)
Lemma FlattenGraph_root_path_witness :
  pathString (Path (Subgraph rootExpanded)) = Ok EmptyString /\
  exists wn,
    Vertices rootFlattened !! 1 =
      Some (wrappableVertex (graphNodeModuleFlatWrap wn ["root"] EmptyString)) /\
    VertexName (wrappableVertex (graphNodeModuleFlatWrap wn ["root"] EmptyString))
    = ".aws_instance.web".
Proof.
  destruct (FlattenGraph_root_path_leading_dot _ 1 rootExpanded "root" 2
              rootFlattened (VerticesList_map_to_list _) allocOk_rootExpanded
              eq_refl FlattenGraph_rootExpanded)
    as (Hps & _ & Hall).
  split; [exact Hps|].
  destruct (Hall 1 _ eq_refl) as (wn & Heq & Hname).
  exists wn. inversion Heq; subst. split; reflexivity.
Defined.

(** The witness of C8: of the three edges, the one between the two resources
    is left. *)
Lemma FlattenGraph_keeps_edges_witness :
  size (edgesAmong (dom (Vertices threeFlattened)) (Edges threeFlattened))
  = size (edgesAmong (retainedSet (Subgraph threeExpanded))
            (Edges (Subgraph threeExpanded))).
Proof.
  destruct (FlattenGraph_removes_skipped_keeps_edges _ 3 threeExpanded 5
              threeFlattened VerticesList_threeExpanded allocOk_threeExpanded
              FlattenGraph_threeExpanded)
    as (ren & _ & _ & _ & _ & _ & Hsize).
  exact Hsize.
Defined.

Lemma edgesAmong_threeExpanded :
  size (edgesAmong (retainedSet (Subgraph threeExpanded))
          (Edges (Subgraph threeExpanded))) = 1.
Proof. vm_compute. reflexivity. Qed.

(** The witness of C9: the vertex [stray] makes [FlattenGraph] panic. *)
Lemma FlattenGraph_panics_witness :
  exists msg,
    FlattenGraph (map_to_list (Vertices (Subgraph brokenExpanded))) 2
      brokenExpanded = Panic msg.
Proof.
  apply (FlattenGraph_panics_on_unwrappable _ 2 brokenExpanded 1 "stray" None).
  - apply VerticesList_map_to_list.
  - reflexivity.
  - discriminate.
Defined.

Lemma FlattenGraph_brokenExpanded :
  FlattenGraph (map_to_list (Vertices (Subgraph brokenExpanded))) 2
    brokenExpanded = Panic "unwrappable node: stray".
Proof. vm_compute. reflexivity. Qed.

(** ** Flattening: when it returns *)

(** X9. [FlattenGraph] returns a graph exactly when the path of the graph is
    not empty and every vertex that is not wrappable declares itself
    skippable; otherwise it panics. *)
Theorem FlattenGraph_returns_iff (vs : list (nat * Vertex)) (next : nat)
    (n : graphNodeModuleExpanded) :
  VerticesList (Subgraph n) vs ->
  ((exists next' g', FlattenGraph vs next n = Ok (next', g')) <->
   Path (Subgraph n) <> [] /\
   forall a vertexName skip,
     Vertices (Subgraph n) !! a = Some (otherVertex vertexName skip) ->
     skip = Some true) /\
  ((exists msg, FlattenGraph vs next n = Panic msg) <->
   ~ exists next' g', FlattenGraph vs next n = Ok (next', g')).
Proof.
  intros Hvs. split; [split|].
  - intros (next' & g' & Hrun). unfold FlattenGraph in Hrun.
    destruct (Path (Subgraph n)) as [|root rest] eqn:Hpath; [discriminate|].
    split; [discriminate|]. intros a nm skip Ha.
    rewrite pathString_qualifiedPath in Hrun.
    destruct skip as [[|]|]; [reflexivity|exfalso..].
    all: destruct (flattenLoop_panics (qualifiedPath rest) vs next (Subgraph n))
        as [msg Hp];
      [eexists a, nm, _; split;
       [by apply list_elem_of_In, (VerticesList_elem _ _ Hvs)|discriminate]
      |congruence].
  - intros [Hpath Hall].
    destruct (Path (Subgraph n)) as [|root rest] eqn:Hp; [done|].
    by apply (FlattenGraph_returns vs next n root rest).
  - destruct (FlattenGraph vs next n) as [[next' g']|msg]; split.
    + intros [msg H]. discriminate.
    + intros H. exfalso. apply H. eauto.
    + intros _ (next' & g' & H). discriminate.
    + intros _. eauto.
Qed.

(** The witness of X9: the graph of two resources and a skippable vertex. *)
Lemma FlattenGraph_returns_iff_witness :
  (exists next' g',
      FlattenGraph (map_to_list (Vertices (Subgraph threeExpanded))) 3
        threeExpanded = Ok (next', g')) <->
  Path (Subgraph threeExpanded) <> [] /\
  forall a vertexName skip,
    Vertices (Subgraph threeExpanded) !! a = Some (otherVertex vertexName skip) ->
    skip = Some true.
Proof.
  apply (FlattenGraph_returns_iff _ 3 threeExpanded).
  apply VerticesList_map_to_list.
Defined.

(** ** Flattening: the path string and the text of an address *)

Lemma qualifiedPath_tailText (p : string) (rest : list string) :
  qualifiedPath (p :: rest)
  = "module." +:+ p +:+ tailText (UnkeyedInstanceShim rest).
Proof.
  revert p. induction rest as [|p' rest IH]; intros p.
  - simpl. by rewrite append_empty_r.
  - change (qualifiedPath (p :: p' :: rest))
      with ("module." +:+ p +:+ "." +:+ qualifiedPath (p' :: rest)).
    rewrite IH. simpl. rewrite !append_assoc. reflexivity.
Qed.

(** X10. The path string that [FlattenGraph] computes for a path is the text
    that [String] gives for the module instance of the names after the root
    segment, each without a key. *)
Theorem pathString_ModuleInstance_String (root : string) (rest : list string) :
  pathString (root :: rest)
  = Ok (ModuleInstance_String (UnkeyedInstanceShim rest)).
Proof.
  rewrite pathString_qualifiedPath. f_equal.
  destruct rest as [|p rest]; [reflexivity|].
  rewrite qualifiedPath_tailText.
  change (UnkeyedInstanceShim (p :: rest))
    with (mkStep p NoKey :: UnkeyedInstanceShim rest).
  rewrite ModuleInstance_String_text. unfold stepText. simpl.
  rewrite !append_assoc. reflexivity.
Qed.

(** ** Flattening: what is allocated *)

Lemma allocOk_Remove (next : nat) (g : Graph) (v : nat) :
  allocOk next g -> allocOk next (Remove g v).
Proof.
  intros [Hlt He]. split; simpl.
  - intros a Ha. rewrite dom_delete in Ha.
    apply elem_of_difference in Ha as [Ha _]. by apply Hlt.
  - intros e Hin. apply elem_of_filter in Hin as [_ Hin]. by apply He.
Qed.

Lemma allocOk_Replace (next : nat) (g : Graph) (v : nat) (obj : Vertex) :
  allocOk next g -> allocOk (S next) (Replace g v next obj).
Proof.
  intros [Hlt He]. split; simpl.
  - intros a Ha. rewrite dom_delete, dom_insert in Ha.
    apply elem_of_difference in Ha as [Ha _].
    apply elem_of_union in Ha as [Ha|Ha].
    + apply elem_of_singleton in Ha. lia.
    + apply Hlt in Ha. lia.
  - intros [s t] Hin. apply elem_of_map in Hin as ([s0 t0] & Heq & Hin).
    apply He in Hin as [Hs Ht]. simpl in *. inversion Heq; subst.
    unfold rewire. split; case_decide; lia.
Qed.

Lemma flattenLoop_alloc (pathStr : string) (vs : list (nat * Vertex)) :
  forall next g next' g',
    allocOk next g ->
    flattenLoop pathStr vs next g = Ok (next', g') ->
    allocOk next' g' /\
    next' = next + length (filter (fun p => skipped p.2 = false) vs).
Proof.
  induction vs as [|[v obj] vs IH]; intros next g next' g' Hok Hrun.
  - simpl in Hrun. inversion Hrun; subst. split; [assumption|simpl; lia].
  - rewrite flattenLoop_cons in Hrun. rewrite filter_cons. simpl.
    destruct (skipped obj) eqn:Hsk.
    + rewrite decide_False by discriminate.
      apply (IH next (Remove g v)); [by apply allocOk_Remove|assumption].
    + rewrite decide_True by reflexivity.
      destruct obj as [wn|nm skip]; [|discriminate].
      destruct (IH (S next) _ next' g' (allocOk_Replace next g v _ Hok) Hrun)
        as [Hok' ->].
      split; [assumption|simpl; lia].
Qed.

Lemma retainedSet_size (g : Graph) (vs : list (nat * Vertex)) :
  VerticesList g vs ->
  size (retainedSet g) = length (filter (fun p => skipped p.2 = false) vs).
Proof.
  intros Hvs. unfold VerticesList in Hvs. rewrite Hvs.
  unfold retainedSet. rewrite size_dom, map_filter_alt.
  apply map_size_list_to_map.
  apply (sublist_NoDup _ ((map_to_list (Vertices g)).*1));
    [apply NoDup_fst_map_to_list|].
  apply fmap_sublist, sublist_filter.
Qed.

Lemma size_set_map_nat_inj_on (f : nat -> nat) (X : gset nat) :
  (forall x y, x ∈ X -> y ∈ X -> f x = f y -> x = y) ->
  size (set_map f X : gset nat) = size X.
Proof.
  intros Hinj. unfold set_map. rewrite size_list_to_set.
  - by rewrite length_fmap.
  - apply NoDup_fmap_2_strong; [|apply NoDup_elements].
    intros x y Hx Hy. apply Hinj; by apply elem_of_elements.
Qed.

(** What [FlattenGraph] allocates, and where the vertices it returns are. *)
Lemma FlattenGraph_alloc (vs : list (nat * Vertex)) (next : nat)
    (n : graphNodeModuleExpanded) (next' : nat) (g' : Graph) :
  VerticesList (Subgraph n) vs ->
  allocOk next (Subgraph n) ->
  FlattenGraph vs next n = Ok (next', g') ->
  Path g' = Path (Subgraph n) /\
  next' = next + size (retainedSet (Subgraph n)) /\
  size (dom (Vertices g')) = size (retainedSet (Subgraph n)) /\
  (forall a', a' ∈ dom (Vertices g') -> next <= a' < next') /\
  allocOk next' g'.
Proof.
  intros Hvs Halloc Hrun.
  destruct (FlattenGraph_spec vs next n next' g' Hvs Halloc Hrun)
    as (pathStr & Hps & Hpath & Hiff & _ & Hge & _ & Hinj).
  set (g := Subgraph n) in *.
  set (ren := renaming vs next) in *.
  unfold FlattenGraph in Hrun. fold g in Hrun. rewrite Hps in Hrun.
  destruct (flattenLoop_alloc pathStr vs next g next' g' Halloc Hrun)
    as [Hok' Hnext].
  rewrite <- (retainedSet_size g vs Hvs) in Hnext.
  assert (dom (Vertices g') = set_map ren (retainedSet g)) as Hdom.
  { apply set_eq. intros a'. rewrite elem_of_map, elem_of_dom. split.
    - intros [obj' H]. apply Hiff in H as (a & wn & Ha & Hs & -> & _).
      exists a. split; [reflexivity|]. apply retainedSet_elem.
      by exists (wrappableVertex wn).
    - intros (a & -> & Ha). apply retainedSet_elem in Ha as (obj & Ha & Hs).
      destruct obj as [wn|nm skip].
      + eexists. apply Hiff. exists a, wn. done.
      + exfalso.
        destruct (flattenLoop_panics pathStr vs next g) as [msg Hp];
          [|congruence].
        exists a, nm, skip. split.
        * by apply list_elem_of_In, (VerticesList_elem _ _ Hvs).
        * intros ->. discriminate. }
  split; [exact Hpath|]. split; [exact Hnext|]. split; [|split].
  - rewrite Hdom. apply size_set_map_nat_inj_on.
    intros x y Hx Hy. apply Hinj; by apply retainedSet_elem.
  - intros a' Ha'. split; [|by apply Hok'].
    rewrite Hdom in Ha'. apply elem_of_map in Ha' as (a & -> & Ha).
    by apply Hge, retainedSet_elem.
  - exact Hok'.
Qed.

(** X22. [FlattenGraph] leaves the path of the graph as it is and allocates
    one flat wrap for each retained vertex. The vertices of the graph it
    returns are these new objects, as many as there were retained vertices:
    no vertex of the graph it was given is left. *)
Theorem FlattenGraph_allocates (vs : list (nat * Vertex)) (next : nat)
    (n : graphNodeModuleExpanded) (next' : nat) (g' : Graph) :
  VerticesList (Subgraph n) vs ->
  allocOk next (Subgraph n) ->
  FlattenGraph vs next n = Ok (next', g') ->
  Path g' = Path (Subgraph n) /\
  next' = next + size (retainedSet (Subgraph n)) /\
  size (dom (Vertices g')) = size (retainedSet (Subgraph n)) /\
  (forall a', a' ∈ dom (Vertices g') ->
              next <= a' < next' /\ (a' ∉ dom (Vertices (Subgraph n)))) /\
  allocOk next' g'.
Proof.
  intros Hvs Halloc Hrun.
  destruct (FlattenGraph_alloc vs next n next' g' Hvs Halloc Hrun)
    as (Hpath & Hnext & Hsize & Hrange & Hok').
  split; [exact Hpath|]. split; [exact Hnext|]. split; [exact Hsize|].
  split; [|exact Hok'].
  intros a' Ha'. apply Hrange in Ha'. split; [exact Ha'|].
  intros Hin. destruct Halloc as [Hlt _]. apply Hlt in Hin. lia.
Qed.

(** The witness of X22: of the three vertices two are retained. *)
Lemma FlattenGraph_allocates_witness :
  5 = 3 + size (retainedSet (Subgraph threeExpanded)) /\
  size (dom (Vertices threeFlattened))
  = size (retainedSet (Subgraph threeExpanded)).
Proof.
  destruct (FlattenGraph_allocates _ 3 threeExpanded 5 threeFlattened
              VerticesList_threeExpanded allocOk_threeExpanded
              FlattenGraph_threeExpanded)
    as (_ & Hnext & Hsize & _).
  split; [exact Hnext|exact Hsize].
Defined.

(** ** Flattening a flattened graph *)

(** X23. The graph that [FlattenGraph] returns holds flat wraps only, which
    are wrappable and not skippable: flattening the node again returns, takes
    no vertex out, and wraps every vertex once more, so that its name carries
    the path string twice. *)
Theorem FlattenGraph_twice (vs : list (nat * Vertex)) (next : nat)
    (n : graphNodeModuleExpanded) (next' : nat) (g' : Graph)
    (vs' : list (nat * Vertex)) :
  VerticesList (Subgraph n) vs ->
  allocOk next (Subgraph n) ->
  FlattenGraph vs next n = Ok (next', g') ->
  VerticesList g' vs' ->
  exists next'' g'',
    FlattenGraph vs' next' (mkExpanded (Original n) g') = Ok (next'', g'') /\
    size (dom (Vertices g'')) = size (dom (Vertices g')) /\
    forall a'' obj'',
      Vertices g'' !! a'' = Some obj'' ->
      exists a wn pathStr,
        Vertices (Subgraph n) !! a = Some (wrappableVertex wn) /\
        skipped (wrappableVertex wn) = false /\
        pathString (Path (Subgraph n)) = Ok pathStr /\
        VertexName obj'' = pathStr +:+ "." +:+ pathStr +:+ "." +:+ Name wn.
Proof.
  intros Hvs Halloc Hrun Hvs'.
  destruct (FlattenGraph_spec vs next n next' g' Hvs Halloc Hrun)
    as (pathStr & Hps & Hpath & Hiff & _).
  destruct (FlattenGraph_alloc vs next n next' g' Hvs Halloc Hrun)
    as (_ & _ & _ & _ & Hok').
  set (g := Subgraph n) in *.
  set (n2 := mkExpanded (Original n) g').
  assert (forall a' obj', Vertices g' !! a' = Some obj' -> skipped obj' = false)
    as Hns.
  { intros a' obj' H. apply Hiff in H as (a & wn & _ & _ & _ & ->). reflexivity. }
  destruct (Path g) as [|root rest] eqn:HPg; [discriminate|].
  destruct (FlattenGraph_returns vs' next' n2 root rest) as (next'' & g'' & Hrun2).
  { exact Hvs'. }
  { simpl. by rewrite Hpath. }
  { intros a' nm skip H. simpl in H. apply Hiff in H as (a & wn & _ & _ & _ & H).
    discriminate. }
  exists next'', g''. split; [exact Hrun2|].
  destruct (FlattenGraph_spec vs' next' n2 next'' g'' Hvs' Hok' Hrun2)
    as (pathStr2 & Hps2 & _ & Hiff2 & _).
  destruct (FlattenGraph_alloc vs' next' n2 next'' g'' Hvs' Hok' Hrun2)
    as (_ & _ & Hsize2 & _).
  simpl in Hps2, Hiff2, Hsize2. rewrite Hpath, Hps in Hps2.
  inversion Hps2; subst pathStr2. split.
  - rewrite Hsize2. unfold retainedSet. f_equal. f_equal.
    apply map_filter_id. intros a' obj' H. simpl. by apply (Hns a').
  - intros a'' obj'' H. apply Hiff2 in H as (a' & wn' & Ha' & _ & _ & ->).
    apply Hiff in Ha' as (a & wn & Ha & Hs & _ & Hw).
    exists a, wn, pathStr. split; [exact Ha|]. split; [exact Hs|].
    split; [exact Hps|]. inversion Hw; subst wn'. reflexivity.
Qed.

(** The witness of X23: the resource of the module [net], flattened twice,
    is named [module.net.module.net.aws_instance.web]. *)
Lemma FlattenGraph_twice_witness :
  exists next'' g'',
    FlattenGraph (map_to_list (Vertices webFlattened)) 2
      (mkExpanded (Original webExpanded) webFlattened) = Ok (next'', g'') /\
    size (dom (Vertices g'')) = size (dom (Vertices webFlattened)) /\
    forall a'' obj'',
      Vertices g'' !! a'' = Some obj'' ->
      exists a wn pathStr,
        Vertices (Subgraph webExpanded) !! a = Some (wrappableVertex wn) /\
        skipped (wrappableVertex wn) = false /\
        pathString (Path (Subgraph webExpanded)) = Ok pathStr /\
        VertexName obj'' = pathStr +:+ "." +:+ pathStr +:+ "." +:+ Name wn.
Proof.
  apply (FlattenGraph_twice (map_to_list (Vertices (Subgraph webExpanded)))
           1 webExpanded 2 webFlattened).
  - apply VerticesList_map_to_list.
  - apply allocOk_webExpanded.
  - apply FlattenGraph_webExpanded.
  - apply VerticesList_map_to_list.
Defined.
